(** * latexmd: LaTeX-in-Markdown preprocessor

    A shallow embedding of [src/latexmd.py] (the [LaTeXPreprocessor] class of
    the Python-Markdown LaTeX extension) and the properties of its
    delimiter scanning, compile-and-cache workflow and rewriting pass.

    Python [str] values are sequences of Unicode code points; they are
    modelled as lists of [N].  The class-level dictionary [cached] is only
    ever looked up and inserted into, so it is a [gmap]; the per-run
    dictionary [new_cache] is iterated in insertion order when the cache file
    is written, so it is kept as an insertion-ordered association list. *)

From Stdlib Require Import List NArith Arith Lia Bool String Ascii.
From Stdlib Require Strings.Byte.
From Stdlib Require Import DecimalString DecimalNat.
From stdpp Require Import base option gmap.
Import ListNotations.

Local Open Scope N_scope.
Local Open Scope list_scope.

(** ** Python strings *)

Module Py.

Abbreviation char := N.
Abbreviation pystr := (list N).

(** An ASCII literal of the source as a [pystr]. *)
Definition py (s : string) : pystr :=
  List.map N_of_ascii (list_ascii_of_string s).

Definition backslash : char := 92.
Definition newline : char := 10.
Definition carriage_return : char := 13.
Definition space : char := 32.

Fixpoint str_eqb (a b : pystr) : bool :=
  match a, b with
  | [], [] => true
  | x :: a', y :: b' => (x =? y) && str_eqb a' b'
  | _, _ => false
  end.

(** [s.startswith(p)] *)
Fixpoint startswith (p s : pystr) : bool :=
  match p, s with
  | [], _ => true
  | x :: p', y :: s' => (x =? y) && startswith p' s'
  | _ :: _, [] => false
  end.

(** [sep.join(l)] *)
Fixpoint join (sep : pystr) (l : list pystr) : pystr :=
  match l with
  | [] => []
  | [x] => x
  | x :: l' => x ++ sep ++ join sep l'
  end.

(** [s.split(c)] for a one-character separator [c]: the fields between the
    occurrences of [c]; the result is never empty. *)
Fixpoint split (c : char) (s : pystr) : list pystr :=
  match s with
  | [] => [[]]
  | x :: s' =>
      if x =? c then [] :: split c s'
      else match split c s' with
           | f :: fs => (x :: f) :: fs
           | [] => [[x]]
           end
  end.

(** [s.replace(old, new)]: every non-overlapping occurrence of [old], found
    left to right, is replaced by [new].  [skip] counts the characters of an
    occurrence that remain to be passed over. *)
Fixpoint replace_from (old new : pystr) (skip : nat) (s : pystr) : pystr :=
  match s with
  | [] => []
  | c :: s' =>
      match skip with
      | S k => replace_from old new k s'
      | O =>
          if startswith old s
          then new ++ replace_from old new (Nat.pred (List.length old)) s'
          else c :: replace_from old new O s'
      end
  end.

Definition replace (old new s : pystr) : pystr :=
  match old with
  | [] => new ++ flat_map (fun c => c :: new) s
  | _ :: _ => replace_from old new O s
  end.

(** [s.strip("\n")]: leading and trailing newlines removed. *)
Fixpoint lstrip (c : char) (s : pystr) : pystr :=
  match s with
  | x :: s' => if x =? c then lstrip c s' else s
  | [] => []
  end.

Definition strip (c : char) (s : pystr) : pystr :=
  rev (lstrip c (rev (lstrip c s))).

(** Text-mode reading translates ["\r\n"] and a lone ["\r"] to ["\n"]. *)
Fixpoint universal_newlines (s : pystr) : pystr :=
  match s with
  | [] => []
  | c :: s' =>
      if c =? carriage_return then
        match s' with
        | d :: s'' =>
            if d =? newline then newline :: universal_newlines s''
            else newline :: universal_newlines s'
        | [] => [newline]
        end
      else c :: universal_newlines s'
  end.

(** [f.readlines()] on already translated text: the lines, each with its
    terminating newline; a last line without one is kept as it is. *)
Fixpoint keepends (cur : pystr) (s : pystr) : list pystr :=
  match s with
  | [] => match cur with [] => [] | _ :: _ => [rev cur] end
  | c :: s' =>
      if c =? newline then rev (c :: cur) :: keepends [] s'
      else keepends (c :: cur) s'
  end.

Definition readlines (content : pystr) : list pystr :=
  keepends [] (universal_newlines content).

(** [str(n)] for a non-negative integer. *)
Definition str_of_nat (n : nat) : pystr :=
  py (NilEmpty.string_of_uint (Nat.to_uint n)).

(** Truthiness of a string: [if data:] *)
Definition truthy (s : pystr) : bool :=
  match s with [] => false | _ :: _ => true end.


End Py.
Import Py.


(** ** The compiled pattern of [build_regexp]

    [build_regexp(delim)] compiles
    [(?<!\\)] delim [(.+?)(?<!\\)] delim with [re.DOTALL], where the delimiter
    is taken literally ([re.escape]).  The matcher below follows the
    backtracking search of Python's [re] for exactly this pattern: a start
    position is tried left to right; at a start position the look-behind must
    not see a backslash, the delimiter must follow, the lazy group takes one
    character (any character, newlines included) and then as few more as
    possible until the closing delimiter follows a character that is not a
    backslash. *)

Module Re.

Record pattern := Pattern { delim : pystr }.

Definition build_regexp (delim : pystr) : pattern := Pattern delim.

(** [(?<!\\)] at a position whose preceding character is [prev]
    ([None] at the start of the string). *)
Definition lookbehind_ok (prev : option char) : bool :=
  match prev with
  | Some c => negb (c =? backslash)
  | None => true
  end.

(** The literal delimiter at the head of [s]; the text after it. *)
Fixpoint strip_prefix (p s : pystr) : option pystr :=
  match p, s with
  | [], _ => Some s
  | x :: p', y :: s' => if x =? y then strip_prefix p' s' else None
  | _ :: _, [] => None
  end.

(** [(.+?)(?<!\\)] delim: [acc] holds the characters already taken by the
    group, last one first.  The result is the group and the text after the
    closing delimiter. *)
Fixpoint lazy_group (d : pystr) (acc s : pystr) : option (pystr * pystr) :=
  match s with
  | [] => None
  | c :: s' =>
      if negb (c =? backslash) then
        match strip_prefix d s' with
        | Some rest => Some (rev (c :: acc), rest)
        | None => lazy_group d (c :: acc) s'
        end
      else lazy_group d (c :: acc) s'
  end.

(** The whole pattern anchored at the head of [s]. *)
Definition match_at (r : pattern) (prev : option char) (s : pystr)
  : option (pystr * pystr) :=
  if lookbehind_ok prev then
    match strip_prefix (delim r) s with
    | Some body => lazy_group (delim r) [] body
    | None => None
    end
  else None.

(** [r.search]: the leftmost match.  The result is the text before the
    match, the group and the text after the match. *)
Fixpoint search (r : pattern) (prev : option char) (s : pystr)
  : option (pystr * pystr * pystr) :=
  match match_at r prev s with
  | Some (g, rest) => Some ([], g, rest)
  | None =>
      match s with
      | [] => None
      | c :: s' =>
          match search r (Some c) s' with
          | Some (b, g, rest) => Some (c :: b, g, rest)
          | None => None
          end
      end
  end.

(** The character just before the text that follows [l], when [prev] was
    the character before [l]. *)
Definition last_char (l : pystr) (prev : option char) : option char :=
  match l with
  | [] => prev
  | x :: l' => Some (List.last l' x)
  end.

(** The successive non-overlapping matches: for each, the text skipped
    before it and its group; and the unmatched tail.  A match is never
    empty, so the scan resumes right after it; the look-behind there sees
    the last character of the match. *)
Fixpoint scan (fuel : nat) (r : pattern) (prev : option char) (s : pystr)
  : list (pystr * pystr) * pystr :=
  match fuel with
  | O => ([], s)
  | S fuel' =>
      match search r prev s with
      | None => ([], s)
      | Some (b, g, rest) =>
          let prev' := last_char (delim r) (last_char g (last_char b prev)) in
          let '(ms, tl) := scan fuel' r prev' rest in
          ((b, g) :: ms, tl)
      end
  end.

Definition finditer (r : pattern) (s : pystr) : list (pystr * pystr) * pystr :=
  scan (S (List.length s)) r None s.

(** [r.findall(s)]: the pattern has one group, so the groups are listed. *)
Definition findall (r : pattern) (s : pystr) : list pystr :=
  List.map snd (fst (finditer r s)).

(** [r.sub(repl, s, 1)] for a replacement without backslashes, which as a
    template stands for itself: the leftmost match is replaced.  Every
    replacement [run] builds is made of fixed markup, a hexadecimal digest,
    a decimal counter and a payload, so it is free of backslashes whenever
    the payload is. *)
Definition sub (r : pattern) (repl s : pystr) : pystr :=
  match search r None s with
  | Some (b, _, rest) => b ++ repl ++ rest
  | None => s
  end.

(** Offsets of the matches of a scan in the scanned text: for each match
    the offset of its opening delimiter, its group and the offset just after
    its closing delimiter. *)
Fixpoint spans (d : pystr) (off : nat) (ms : list (pystr * pystr))
  : list (nat * pystr * nat) :=
  match ms with
  | [] => []
  | (b, g) :: ms' =>
      let start := (off + List.length b)%nat in
      let stop := (start + List.length d + List.length g + List.length d)%nat in
      (start, g, stop) :: spans d stop ms'
  end.

(** The text a scan was computed from. *)
Fixpoint rebuild (d : pystr) (ms : list (pystr * pystr)) (tl : pystr) : pystr :=
  match ms with
  | [] => tl
  | (b, g) :: ms' => b ++ d ++ g ++ d ++ rebuild d ms' tl
  end.

(** The scanned text with every match cut out. *)
Fixpoint cut_matches (ms : list (pystr * pystr)) (tl : pystr) : pystr :=
  match ms with
  | [] => tl
  | (b, _) :: ms' => b ++ cut_matches ms' tl
  end.

(** The scanned text with the first matches replaced by the texts of
    [repls], one each, and the remaining matches left as they were. *)
Fixpoint weave (d : pystr) (ms : list (pystr * pystr)) (repls : list pystr)
  (tl : pystr) : pystr :=
  match ms, repls with
  | (b, _) :: ms', rp :: repls' => b ++ rp ++ weave d ms' repls' tl
  | _, _ => rebuild d ms tl
  end.

(** A search result seen from [pre] characters further left. *)
Definition shift (pre : pystr) (m : option (pystr * pystr * pystr))
  : option (pystr * pystr * pystr) :=
  match m with
  | Some (b, g, rest) => Some (pre ++ b, g, rest)
  | None => None
  end.

(** The character before offset [p] of [s]. *)
Definition char_before (s : pystr) (p : nat) : option char :=
  match p with
  | O => None
  | S k => nth_error s k
  end.

(** The span is a delimited occurrence of its group in [s]. *)
Definition occurs_at (d s : pystr) (sp : nat * pystr * nat) : Prop :=
  let '(start, g, stop) := sp in
  (stop = start + List.length d + List.length g + List.length d)%nat
  /\ firstn (stop - start) (skipn start s) = d ++ g ++ d.

(** The spans lie one after the other, from offset [lo] on. *)
Fixpoint ascending (lo : nat) (sps : list (nat * pystr * nat)) : Prop :=
  match sps with
  | [] => True
  | (start, _, stop) :: sps' =>
      (lo <= start)%nat /\ (start < stop)%nat /\ ascending stop sps'
  end.

(** Neither delimiter of the span follows a backslash. *)
Definition unescaped (d s : pystr) (sp : nat * pystr * nat) : Prop :=
  let '(start, _, stop) := sp in
  lookbehind_ok (char_before s start) = true
  /\ lookbehind_ok (char_before s (stop - List.length d)) = true.

(** The look-behind succeeds just after the delimiter. *)
Definition good_delim (r : pattern) : Prop :=
  forall p, lookbehind_ok (last_char (delim r) p) = true.

(** A text [pre] at the head of the string that no search stops in. *)
Definition inert (r : pattern) (pre : pystr) : Prop :=
  forall t p, lookbehind_ok p = true ->
    search r None (pre ++ t) = shift pre (search r p t).

(** A continuation [t] that completes no delimiter begun before it, other
    than one the delimiter it replaces completed as well. *)
Definition stable_for (d t : pystr) : Prop :=
  forall x z, x <> [] ->
    startswith d (x ++ d ++ z) = false -> startswith d (x ++ t) = false.

(** A replacement text that neither completes nor contains a match start,
    whatever follows it. *)
Definition neutral (r : pattern) (repl : pystr) : Prop :=
  forall t,
    stable_for (delim r) (repl ++ t)
    /\ forall prev p, lookbehind_ok prev = true -> lookbehind_ok p = true ->
         search r prev (repl ++ t) = shift repl (search r p t).

End Re.
Import Re.

(** ** [base64.b64encode] *)

Module Base64.

Definition alphabet : pystr :=
  py "ABCDEFGHIJKLMNOPQRSTUVWXYZabcdefghijklmnopqrstuvwxyz0123456789+/".

Definition pad : char := 61.

Definition digit (i : N) : char := List.nth (N.to_nat i) alphabet pad.

Fixpoint encode (data : list N) : pystr :=
  match data with
  | [] => []
  | [a] => [digit (a / 4); digit ((a mod 4) * 16); pad; pad]
  | [a; b] =>
      [digit (a / 4); digit ((a mod 4) * 16 + b / 16);
       digit ((b mod 16) * 4); pad]
  | a :: b :: c :: data' =>
      digit (a / 4) :: digit ((a mod 4) * 16 + b / 16)
      :: digit ((b mod 16) * 4 + c / 64) :: digit (c mod 64)
      :: encode data'
  end.

Definition b64encode (data : list Byte.byte) : pystr :=
  encode (List.map Byte.to_N data).

End Base64.

(** ** The preprocessor *)

Module LaTeXMd.

(** [IMG_EXPR % (alt, id, data)] and [INLINE_IMG_EXPR % (alt, id, data)] *)
Definition IMG_EXPR (alt id data : pystr) : pystr :=
  py "<div class='latex-box math-false'><img class='' alt='" ++ alt
  ++ py "' id='" ++ id
  ++ py "' src='data:image/png;base64," ++ data ++ py "'></div>".

Definition INLINE_IMG_EXPR (alt id data : pystr) : pystr :=
  py "<img class='math-true' alt='" ++ alt
  ++ py "' id='" ++ id
  ++ py "' src='data:image/png;base64," ++ data ++ py "'>".

Definition IMG_CSS : pystr :=
  newline :: py "<style scoped>"
  ++ newline :: py ".latex-box.math-false {text-align: center;}"
  ++ newline :: py ".math-true {vertical-align: middle;}"
  ++ newline :: py "</style>" ++ [newline].

(** The class attribute [tex_preamble]. *)
Definition base_preamble : pystr :=
  py "\documentclass{article}" ++ newline
  :: py "\usepackage{amsmath}" ++ newline
  :: py "\usepackage{amsthm}" ++ newline
  :: py "\usepackage{amssymb}" ++ newline
  :: py "\usepackage{bm}" ++ newline
  :: py "\usepackage{parskip}" ++ newline
  :: py "\usepackage[usenames,dvipsnames]{color}" ++ newline
  :: py "\pagestyle{empty}" ++ [newline].

(** The configuration [__init__] installs. *)
Definition config_general_preamble : pystr := [].
Definition config_dvipng_args : pystr :=
  py "-q -T tight -bg Transparent -z 9 -D 106".
Definition config_delimiters_text : pystr := Eval vm_compute in py "%".
Definition config_delimiters_math : pystr := [194; 163].
Definition config_delimiters_preamble : pystr :=
  Eval vm_compute in py "%%".

Definition re_textmode : pattern := build_regexp config_delimiters_text.
Definition re_mathmode : pattern := build_regexp config_delimiters_math.
Definition re_preamblemode : pattern := build_regexp config_delimiters_preamble.

(** What lies outside the program: the digest function and the two
    command-line tools.  [latex w doc] tells whether [latex -halt-on-error]
    exits with status zero on the document [doc]; [dvipng w doc] is the PNG
    file [dvipng] leaves for the DVI of [doc], or [None] when it exits with a
    non-zero status. *)
Record world := World {
  md5_hexdigest : pystr -> pystr;
  latex : pystr -> bool;
  dvipng : pystr -> option (list Byte.byte)
}.

Inductive exn := ValueError | IOError | CompileError | ConvertError.

Inductive result (A : Type) :=
  | Ok (a : A)
  | Raise (e : exn).
Arguments Ok {A} a.
Arguments Raise {A} e.

(** Console output and subprocesses, in the order they happen. *)
Inductive event :=
  | EvPrint (s : pystr)
  | EvLatex (doc : pystr)
  | EvDvipng (args doc : pystr)
  | EvCleanup (extensions : list pystr).

(** The file [latex.cache] of the working directory. *)
Inductive file :=
  | Missing
  | Unreadable
  | Text (content : pystr).

Record state := State {
  cached : gmap pystr pystr;
  tex_preamble : pystr;
  cache_file : file;
  trace : list event
}.

(** *** [__init__] *)

(** The body of the [for] loop over [readlines()]: the first line that does
    not unpack into a key and a value raises, and the insertions made before
    it stay in the dictionary. *)
Fixpoint load_lines (c : gmap pystr pystr) (lines : list pystr)
  : gmap pystr pystr * result unit :=
  match lines with
  | [] => (c, Ok tt)
  | line :: lines' =>
      match split space (strip newline line) with
      | [key; val] => load_lines (<[key := val]> c) lines'
      | _ => (c, Raise ValueError)
      end
  end.

(** The key and the value a line unpacks into, if it does. *)
Definition entry_of (line : pystr) : option (pystr * pystr) :=
  match split space (strip newline line) with
  | [key; val] => Some (key, val)
  | _ => None
  end.

(** The entries of the lines before the first one that does not unpack. *)
Fixpoint leading_entries (lines : list pystr) : list (pystr * pystr) :=
  match lines with
  | [] => []
  | line :: lines' =>
      match entry_of line with
      | Some kv => kv :: leading_entries lines'
      | None => []
      end
  end.

(** [d[k] = v] for each entry in turn. *)
Definition insert_all (es : list (pystr * pystr)) (c : gmap pystr pystr)
  : gmap pystr pystr :=
  fold_left (fun c kv => <[fst kv := snd kv]> c) es c.

Definition load_cache (c : gmap pystr pystr) (f : file)
  : gmap pystr pystr * result unit :=
  match f with
  | Text content => load_lines c (readlines content)
  | Missing | Unreadable => (c, Raise IOError)
  end.

(** [try: ... except Exception: pass], then the configuration and the three
    patterns, which are the constants above. *)
Definition __init__ (st : state) : result state :=
  let '(c, _) := load_cache (cached st) (cache_file st) in
  Ok {| cached := c;
        tex_preamble := base_preamble;
        cache_file := cache_file st;
        trace := trace st |}.

(** *** [_cleanup] and [_latex_to_base64] *)

(** The extensions of the files [_cleanup(path, err)] removes: after an
    error the log is kept. *)
Definition _cleanup (err : bool) : list pystr :=
  let extensions := [[]; py ".aux"; py ".dvi"; py ".png"; py ".log"] in
  if err then removelast extensions else extensions.

(** The text written to the temporary file. *)
Definition document (preamble tex : pystr) (math_mode : bool) : pystr :=
  preamble
  ++ (if math_mode then py "$" ++ tex ++ py "$" else tex)
  ++ newline :: py "\end{document}".

(** [str(data)[2:-1]] of the encoded bytes is the encoded text itself. *)
Definition _latex_to_base64 (w : world) (preamble tex : pystr) (math_mode : bool)
  : list event * result pystr :=
  let doc := document preamble tex math_mode in
  if latex w doc then
    match dvipng w doc with
    | Some png =>
        ([EvLatex doc; EvDvipng config_dvipng_args doc;
          EvCleanup (_cleanup false)],
         Ok (Base64.b64encode png))
    | None =>
        ([EvLatex doc; EvDvipng config_dvipng_args doc;
          EvCleanup (_cleanup true)],
         Raise ConvertError)
    end
  else ([EvLatex doc; EvCleanup (_cleanup true)], Raise CompileError).

(** *** [run] *)

(** [d[k] = v] on an insertion-ordered dictionary. *)
Fixpoint dict_set (k v : pystr) (d : list (pystr * pystr))
  : list (pystr * pystr) :=
  match d with
  | [] => [(k, v)]
  | (k', v') :: d' =>
      if str_eqb k k' then (k, v) :: d' else (k', v') :: dict_set k v d'
  end.

Fixpoint dict_get (k : pystr) (d : list (pystr * pystr)) : option pystr :=
  match d with
  | [] => None
  | (k', v') :: d' => if str_eqb k k' then Some v' else dict_get k d'
  end.

(** The preamble loop: each fragment found in the page as it was is
    appended with a newline, and one match is deleted from the page. *)
Definition preamble_step (acc : pystr * pystr) (preamble : pystr)
  : pystr * pystr :=
  (fst acc ++ preamble ++ [newline], sub re_preamblemode [] (snd acc)).

Definition begin_document : pystr :=
  newline :: py "\begin{document}" ++ [newline].

Definition absorb_preambles (tex_preamble page : pystr) : pystr * pystr :=
  let tex_preamble := tex_preamble ++ config_general_preamble in
  let preambles := findall re_preamblemode page in
  let '(tex_preamble, page) :=
    fold_left preamble_step preambles (tex_preamble, page) in
  (tex_preamble ++ begin_document, page).

(** The list [tex_expr]. *)
Definition extract (page : pystr) : list (pattern * bool * pystr) :=
  List.map (fun x => (re_textmode, false, x)) (findall re_textmode page)
  ++ List.map (fun x => (re_mathmode, true, x)) (findall re_mathmode page).

(** The variables of the expression loop. *)
Record loop_state := LoopState {
  page : pystr;
  new_cache : list (pystr * pystr);
  id : nat;
  out : list event
}.

(** What an expression is replaced with. *)
Definition replacement (math_mode : bool) (simp_expr : pystr) (id : nat)
  (data : pystr) : pystr :=
  if truthy data then
    if math_mode
    then INLINE_IMG_EXPR simp_expr (simp_expr ++ py "_" ++ str_of_nat id) data
    else IMG_EXPR simp_expr (simp_expr ++ py "_" ++ str_of_nat id) data
  else py "<p>ERROR</p>".

(** One iteration of [for reg, math_mode, expr in tex_expr].  The
    statement [expr = expr.replace(...)] of the source changes a variable
    that is not read afterwards. *)
Definition step (w : world) (cached : gmap pystr pystr) (preamble : pystr)
  (ls : loop_state) (e : pattern * bool * pystr) : loop_state :=
  let '(reg, math_mode, expr) := e in
  let simp_expr := md5_hexdigest w expr in
  let out1 := out ls ++ [EvPrint simp_expr] in
  let '(data, new_cache1, out2) :=
    match cached !! simp_expr with
    | Some data => (data, new_cache ls, out1)
    | None =>
        match _latex_to_base64 w preamble expr math_mode with
        | (evs, Ok data) =>
            (data, dict_set simp_expr data (new_cache ls), out1 ++ evs)
        | (evs, Raise _) => ([], new_cache ls, out1 ++ evs)
        end
    end in
  let id1 := S (id ls) in
  {| page := sub reg (replacement math_mode simp_expr id1 data) (page ls);
     new_cache := new_cache1;
     id := id1;
     out := out2 |}.


Definition step_data (w : world) (cached : gmap pystr pystr)
  (preamble : pystr) (e : pattern * bool * pystr) : pystr :=
  let '(_, math_mode, expr) := e in
  match cached !! md5_hexdigest w expr with
  | Some data => data
  | None =>
      match snd (_latex_to_base64 w preamble expr math_mode) with
      | Ok data => data
      | Raise _ => []
      end
  end.

(** The replacement texts of successive iterations, the counter being [n]
    before the first of them. *)
Fixpoint replacements (w : world) (cached : gmap pystr pystr)
  (preamble : pystr) (n : nat) (es : list (pattern * bool * pystr))
  : list pystr :=
  match es with
  | [] => []
  | e :: es' =>
      replacement (snd (fst e)) (md5_hexdigest w (snd e)) (S n)
        (step_data w cached preamble e)
      :: replacements w cached preamble (S n) es'
  end.





(** [simp_expr + "_" + str(id)], the [id] attribute of an image. *)
Definition element_id (simp_expr : pystr) (id : nat) : pystr :=
  simp_expr ++ py "_" ++ str_of_nat id.

(** The tokens whose escaped form is undone, in the order of the list
    [tokens]. *)
Definition tokens : list pystr :=
  [config_delimiters_preamble; config_delimiters_text;
   config_delimiters_math; [backslash]].

Definition unescape (page : pystr) : pystr :=
  fold_left (fun pg tok => replace (backslash :: tok) tok pg) tokens page.



(** The line [cache_file.write("%s %s\n" % (key, value))] writes for an
    entry, and the lines of the whole dictionary. *)
Definition line_of (kv : pystr * pystr) : pystr :=
  fst kv ++ [space] ++ snd kv ++ [newline].

Definition cache_lines (new_cache : list (pystr * pystr)) : pystr :=
  flat_map line_of new_cache.

(** [open('latex.cache', 'a')], the writes and [close()]. *)
Definition append (f : file) (text : pystr) : result file :=
  match f with
  | Missing => Ok (Text text)
  | Text content => Ok (Text (content ++ text))
  | Unreadable => Raise IOError
  end.

(** A text without the characters that begin a delimiter. *)
Definition delimiter_free (s : pystr) : Prop :=
  Forall (fun c => c <> 37 /\ c <> 194) s.

(** The variables as the expression loop finds them. *)
Definition loop_start (st : state) (page1 : pystr) : loop_state :=
  {| page := page1; new_cache := []; id := O; out := trace st |}.

(** The part of [run] after the preamble loop. *)
Definition render (w : world) (st : state) (preamble page1 : pystr)
  : state * result (list pystr) :=
  let tex_expr := extract page1 in
  match tex_expr with
  | [] =>
      ({| cached := cached st; tex_preamble := preamble;
          cache_file := cache_file st; trace := trace st |},
       Ok (split newline page1))
  | _ :: _ =>
      let ls :=
        fold_left (step w (cached st) preamble) tex_expr
          (loop_start st page1) in
      let page2 := unescape (page ls) in
      match append (cache_file st) (cache_lines (new_cache ls)) with
      | Ok f =>
          ({| cached := cached st; tex_preamble := preamble;
              cache_file := f; trace := out ls |},
           Ok (split newline page2))
      | Raise e =>
          ({| cached := cached st; tex_preamble := preamble;
              cache_file := cache_file st; trace := out ls |},
           Raise e)
      end
  end.

Definition run (w : world) (st : state) (lines : list pystr)
  : state * result (list pystr) :=
  let page0 := join [newline] lines in
  let '(preamble, page1) := absorb_preambles (tex_preamble st) page0 in
  render w st preamble page1.

(** Successive calls of [run] on one instance. *)
Definition runs (w : world) (st : state) (docs : list (list pystr)) : state :=
  fold_left (fun st lines => fst (run w st lines)) docs st.

(** [LaTeXPostprocessor.run] *)
Definition postprocess (text : pystr) : pystr := IMG_CSS ++ text.

End LaTeXMd.
Import LaTeXMd.

(** ** Conditions on the surroundings *)

(** A character that can stand in a field of a cache line: no space and
    no line terminator. *)
Definition field_char (c : char) : Prop :=
  c <> space /\ c <> newline /\ c <> carriage_return.

Definition field (s : pystr) : Prop := Forall field_char s.


(** A character that is no part of a delimiter and no backslash. *)
Definition plain_char (c : char) : Prop :=
  c <> 37 /\ c <> backslash /\ c <> 194 /\ c <> 163.

Definition plain (s : pystr) : Prop := Forall plain_char s.

Definition plain_charb (c : char) : bool :=
  negb (c =? 37) && negb (c =? backslash) && negb (c =? 194)
  && negb (c =? 163).

(** Digests and cached payloads free of delimiters and backslashes. *)
Definition plain_digest (w : world) : Prop :=
  forall s, plain (md5_hexdigest w s).

Definition plain_cache (c : gmap pystr pystr) : Prop :=
  forall k v, c !! k = Some v -> plain v.


(** The characters of a hexadecimal digest or of a base64 payload. *)
Definition token_char (c : char) : bool :=
  ((48 <=? c) && (c <=? 57)) || ((65 <=? c) && (c <=? 90))
  || ((97 <=? c) && (c <=? 122)) || (c =? 43) || (c =? 47) || (c =? 61).

Definition token (s : pystr) : Prop := Forall (fun c => token_char c = true) s.


(** Every entry of [nc] stems from an expression of [done] that was not
    cached and compiled. *)
Definition recorded_from (w : world) (c : gmap pystr pystr)
  (preamble : pystr) (done : list (pattern * bool * pystr))
  (nc : list (pystr * pystr)) : Prop :=
  forall k v, In (k, v) nc ->
    c !! k = None
    /\ exists r m E, In (r, m, E) done /\ k = md5_hexdigest w E
                     /\ snd (_latex_to_base64 w preamble E m) = Ok v.

(** The characters the un-escaping never touches. *)
Definition not_backslash (c : char) : bool := negb (c =? backslash).


Definition file_entries (f : file) : list (pystr * pystr) :=
  match f with
  | Text content => leading_entries (readlines content)
  | Missing | Unreadable => []
  end.

(** ** Sample surroundings

    Concrete tools and states on which the model is run: a stand-in digest
    of two hexadecimal digits, a [latex] that accepts everything or rejects
    the documents that contain a math region, and a [dvipng] that leaves
    the first bytes of a PNG file. *)

Module Demo.

Definition hexdigit (n : N) : char :=
  List.nth (N.to_nat n) (py "0123456789abcdef") 48.

Definition digest (s : pystr) : pystr :=
  let n := fold_left N.add s 0 mod 256 in
  [hexdigit (n / 16); hexdigit (n mod 16)].

Definition png : list Byte.byte := [Byte.x89; Byte.x50; Byte.x4e; Byte.x47].

Definition tools : world :=
  {| md5_hexdigest := digest;
     latex := fun _ => true;
     dvipng := fun _ => Some png |}.


Definition fresh : state :=
  {| cached := ∅;
     tex_preamble := base_preamble;
     cache_file := Missing;
     trace := [] |}.


(** A [dvipng] that leaves an empty image file. *)
Definition tools_empty_image : world :=
  {| md5_hexdigest := digest;
     latex := fun _ => true;
     dvipng := fun _ => Some [] |}.

(** The state after [__init__]. *)
Definition started (st : state) : state :=
  match __init__ st with
  | Ok st' => st'
  | Raise _ => st
  end.

(** The block image of the expression [x], as element number [n]. *)
Definition block_x (n : nat) : pystr :=
  IMG_EXPR (digest (py "x")) (digest (py "x") ++ py "_" ++ str_of_nat n)
    (Base64.b64encode png).

End Demo.

(** * Properties *)

(** ** Strings *)

Section StringFacts.

Implicit Types (s p t : pystr) (c : char).

Lemma str_eqb_eq a b : str_eqb a b = true <-> a = b.
Proof.
  revert b; induction a as [|x a IH]; intros [|y b]; simpl; split;
    try congruence; try discriminate.
  - intros [Hx Hab]%andb_prop. apply N.eqb_eq in Hx. apply IH in Hab.
    congruence.
  - intros [= -> ->]. rewrite N.eqb_refl. simpl. now apply IH.
Qed.

Lemma str_eqb_refl a : str_eqb a a = true.
Proof. now apply str_eqb_eq. Qed.


Lemma startswith_spec p s : startswith p s = true <-> exists r, s = p ++ r.
Proof.
  revert s; induction p as [|x p IH]; intros s; simpl.
  - split; [intros _; now exists s | reflexivity].
  - destruct s as [|y s].
    + split; [discriminate | intros [r Hr]; discriminate].
    + rewrite andb_true_iff, N.eqb_eq, IH. split.
      * intros [-> [r ->]]. now exists r.
      * intros [r [= -> ->]]. split; [reflexivity | now exists r].
Qed.

Lemma startswith_head_ne e d x s :
  e <> x -> startswith (e :: d) (x :: s) = false.
Proof.
  intros Hne. cbn [startswith].
  destruct (N.eqb_spec e x); [contradiction | reflexivity].
Qed.

Lemma startswith_app p s : startswith p (p ++ s) = true.
Proof. apply startswith_spec. now exists s. Qed.

Lemma strip_prefix_spec p s r : strip_prefix p s = Some r <-> s = p ++ r.
Proof.
  revert s; induction p as [|x p IH]; intros s; simpl.
  - split; congruence.
  - destruct s as [|y s]; [split; discriminate|].
    destruct (N.eqb_spec x y) as [->|Hne].
    + rewrite IH. split; congruence.
    + split; [discriminate | congruence].
Qed.

Lemma strip_prefix_app p s : strip_prefix p (p ++ s) = Some s.
Proof. now apply strip_prefix_spec. Qed.

Lemma strip_prefix_startswith p s :
  strip_prefix p s = None <-> startswith p s = false.
Proof.
  split; intros H.
  - destruct (startswith p s) eqn:E; [|reflexivity].
    apply startswith_spec in E as [r ->].
    rewrite strip_prefix_app in H. discriminate.
  - destruct (strip_prefix p s) as [r|] eqn:E; [|reflexivity].
    apply strip_prefix_spec in E as ->.
    rewrite startswith_app in H. discriminate.
Qed.

(** [split] and [join] *)

Lemma split_nonempty c s : split c s <> [].
Proof.
  destruct s as [|x s]; simpl; [discriminate|].
  destruct (x =? c); [discriminate|].
  destruct (split c s); discriminate.
Qed.

Lemma join_cons sep x y l : join sep (x :: y :: l) = x ++ sep ++ join sep (y :: l).
Proof. reflexivity. Qed.

Lemma join_split c s : join [c] (split c s) = s.
Proof.
  induction s as [|x s IH]; [reflexivity|]. simpl.
  pose proof (split_nonempty c s) as Hn.
  destruct (split c s) as [|f fs]; [contradiction|].
  destruct (N.eqb_spec x c) as [->|Hne].
  - rewrite join_cons, IH. reflexivity.
  - destruct fs as [|f' fs].
    + simpl in *. now rewrite IH.
    + rewrite join_cons in IH. rewrite join_cons. simpl. now rewrite <- IH.
Qed.

Lemma split_app_sep c f s :
  ~ In c f -> split c (f ++ c :: s) = f :: split c s.
Proof.
  induction f as [|x f IH]; intros Hnin; simpl.
  - now rewrite N.eqb_refl.
  - destruct (N.eqb_spec x c) as [->|Hne]; [exfalso; apply Hnin; now left|].
    rewrite IH; [reflexivity|]. intros Hin. apply Hnin. now right.
Qed.

Lemma split_no_sep c f : ~ In c f -> split c f = [f].
Proof.
  induction f as [|x f IH]; intros Hnin; simpl; [reflexivity|].
  destruct (N.eqb_spec x c) as [->|Hne]; [exfalso; apply Hnin; now left|].
  rewrite IH; [reflexivity|]. intros Hin. apply Hnin. now right.
Qed.

Lemma split_join c l :
  l <> [] -> Forall (fun f => ~ In c f) l -> split c (join [c] l) = l.
Proof.
  induction l as [|x l IH]; intros Hne Hall; [contradiction|].
  inversion Hall as [|? ? Hx Hl]; subst.
  destruct l as [|y l].
  - simpl. now apply split_no_sep.
  - rewrite join_cons.
    change ([c] ++ join [c] (y :: l)) with (c :: join [c] (y :: l)).
    rewrite split_app_sep by assumption.
    rewrite IH; [reflexivity | discriminate | assumption].
Qed.

End StringFacts.

(** ** The pattern *)

Section PatternFacts.

Variable r : pattern.

Lemma lookbehind_ok_spec prev :
  lookbehind_ok prev = true <-> prev <> Some backslash.
Proof.
  destruct prev as [c|]; simpl; [|split; [discriminate | reflexivity]].
  rewrite negb_true_iff, N.eqb_neq. split; congruence.
Qed.

Lemma last_default (b : pystr) (x y : char) :
  b <> [] -> List.last b x = List.last b y.
Proof.
  induction b as [|z b IH]; intros Hne; [contradiction|].
  destruct b as [|z' b]; [reflexivity|].
  change (List.last (z' :: b) x = List.last (z' :: b) y).
  apply IH. discriminate.
Qed.

Lemma last_cons (b : pystr) (x y : char) :
  List.last (y :: b) x = List.last b y.
Proof.
  destruct b as [|z b]; [reflexivity|].
  change (List.last (z :: b) x = List.last (z :: b) y).
  apply last_default. discriminate.
Qed.

Lemma last_app_cons (a b : pystr) (x y : char) :
  List.last (a ++ y :: b) x = List.last b y.
Proof.
  revert x; induction a as [|z a IH]; intros x.
  - apply last_cons.
  - change ((z :: a) ++ y :: b) with (z :: (a ++ y :: b)).
    rewrite last_cons. apply IH.
Qed.

Lemma last_char_app a b prev :
  last_char (a ++ b) prev = last_char b (last_char a prev).
Proof.
  destruct b as [|y b]; [now rewrite app_nil_r|].
  destruct a as [|x a]; [reflexivity|].
  simpl. f_equal. apply last_app_cons.
Qed.

Lemma last_char_cons x a prev :
  last_char (x :: a) prev = last_char a (Some x).
Proof. apply (last_char_app [x] a prev). Qed.

Lemma last_char_nonempty a p q : a <> [] -> last_char a p = last_char a q.
Proof. destruct a; [contradiction | reflexivity]. Qed.

(** *** The lazy group *)

Lemma lazy_group_sound d acc s g rest :
  lazy_group d acc s = Some (g, rest) ->
  exists g', g' <> [] /\ g = rev acc ++ g' /\ s = g' ++ d ++ rest
             /\ lookbehind_ok (last_char g' None) = true.
Proof.
  revert acc; induction s as [|c s IH]; intros acc; simpl; [discriminate|].
  intros H.
  assert (Hrec : lazy_group d (c :: acc) s = Some (g, rest) ->
    exists g', g' <> [] /\ g = rev acc ++ g' /\ c :: s = g' ++ d ++ rest
               /\ lookbehind_ok (last_char g' None) = true).
  { intros H'. apply IH in H' as (g' & Hne & -> & -> & Hok).
    exists (c :: g'). split; [discriminate|]. split; [|split].
    - simpl. now rewrite <- app_assoc.
    - reflexivity.
    - rewrite last_char_cons.
      now rewrite (last_char_nonempty g' (Some c) None). }
  destruct (negb (c =? backslash)) eqn:Hc; [|auto].
  destruct (strip_prefix d s) as [rest0|] eqn:Hp; [|auto].
  injection H as <- <-. apply strip_prefix_spec in Hp as ->.
  exists [c]. split; [discriminate|]. split; [|split]; simpl; auto.
Qed.

(** The group stops at the first closing delimiter that is not escaped. *)
Lemma lazy_group_first d acc g rest :
  g <> [] ->
  lookbehind_ok (last_char g None) = true ->
  (forall g1 g2, g = g1 ++ g2 -> g1 <> [] -> g2 <> [] ->
     lookbehind_ok (last_char g1 None) = false
     \/ startswith d (g2 ++ d ++ rest) = false) ->
  lazy_group d acc (g ++ d ++ rest) = Some (rev acc ++ g, rest).
Proof.
  revert acc; induction g as [|c g IH]; intros acc Hne Hok Hfirst;
    [contradiction|].
  destruct g as [|c' g].
  - simpl in *. rewrite Hok, strip_prefix_app. reflexivity.
  - assert (Hstep : lazy_group d (c :: acc) ((c' :: g) ++ d ++ rest)
                    = Some (rev acc ++ c :: c' :: g, rest)).
    { rewrite IH.
      - simpl. now rewrite <- app_assoc.
      - discriminate.
      - now rewrite last_char_cons, (last_char_nonempty _ (Some c) None) in Hok.
      - intros g1 g2 Hg Hg1 Hg2.
        destruct (Hfirst (c :: g1) g2) as [Hl|Hs];
          [simpl; congruence | discriminate | assumption | | now right].
        left. now rewrite last_char_cons,
                (last_char_nonempty _ (Some c) None) in Hl. }
    change ((c :: c' :: g) ++ d ++ rest) with (c :: ((c' :: g) ++ d ++ rest)).
    cbn [lazy_group].
    destruct (Hfirst [c] (c' :: g)) as [Hl|Hs];
      [reflexivity | discriminate | discriminate | | ].
    + simpl in Hl. rewrite Hl. exact Hstep.
    + apply strip_prefix_startswith in Hs. rewrite Hs.
      destruct (negb (c =? backslash)); exact Hstep.
Qed.

(** A closing delimiter that is not escaped, anywhere after the first
    character, makes the group succeed. *)
Lemma lazy_group_complete d acc g rest :
  g <> [] ->
  lookbehind_ok (last_char g None) = true ->
  is_Some (lazy_group d acc (g ++ d ++ rest)).
Proof.
  revert acc; induction g as [|c g IH]; intros acc Hne Hok; [contradiction|].
  change ((c :: g) ++ d ++ rest) with (c :: (g ++ d ++ rest)).
  cbn [lazy_group].
  destruct g as [|c' g].
  - simpl in *. rewrite Hok, strip_prefix_app. eauto.
  - assert (is_Some (lazy_group d (c :: acc) ((c' :: g) ++ d ++ rest))).
    { apply IH; [discriminate|].
      now rewrite last_char_cons, (last_char_nonempty _ (Some c) None) in Hok. }
    destruct (negb (c =? backslash)); [|assumption].
    destruct (strip_prefix d _); [eauto | assumption].
Qed.

(** *** One match *)

Lemma match_at_sound prev s g rest :
  match_at r prev s = Some (g, rest) ->
  lookbehind_ok prev = true /\ s = delim r ++ g ++ delim r ++ rest
  /\ g <> [] /\ lookbehind_ok (last_char g None) = true.
Proof.
  unfold match_at. destruct (lookbehind_ok prev); [|discriminate].
  destruct (strip_prefix (delim r) s) as [body|] eqn:Hp; [|discriminate].
  apply strip_prefix_spec in Hp as ->.
  intros (g' & Hne & -> & -> & Hok)%lazy_group_sound. simpl. auto.
Qed.

(** An opening delimiter that is not escaped and has, further right, a
    closing delimiter that is not escaped, always starts a match. *)
Lemma match_at_complete prev g rest :
  lookbehind_ok prev = true -> g <> [] ->
  lookbehind_ok (last_char g None) = true ->
  is_Some (match_at r prev (delim r ++ g ++ delim r ++ rest)).
Proof.
  intros Hp Hne Hok. unfold match_at. rewrite Hp, strip_prefix_app.
  now apply lazy_group_complete.
Qed.

Lemma match_at_prev p q s :
  lookbehind_ok p = lookbehind_ok q -> match_at r p s = match_at r q s.
Proof. unfold match_at. now intros ->. Qed.

Lemma match_at_escaped prev s :
  lookbehind_ok prev = false -> match_at r prev s = None.
Proof. unfold match_at. now intros ->. Qed.

Lemma match_at_no_delim prev s :
  startswith (delim r) s = false -> match_at r prev s = None.
Proof.
  intros H%strip_prefix_startswith. unfold match_at. rewrite H.
  now destruct (lookbehind_ok prev).
Qed.

(** *** The leftmost match *)

Lemma search_unfold prev s :
  search r prev s =
  match match_at r prev s with
  | Some (g, rest) => Some ([], g, rest)
  | None =>
      match s with
      | [] => None
      | c :: s' => shift [c] (search r (Some c) s')
      end
  end.
Proof. destruct s; reflexivity. Qed.

Lemma search_prev p q s :
  lookbehind_ok p = lookbehind_ok q -> search r p s = search r q s.
Proof.
  intros H. rewrite (search_unfold p), (search_unfold q).
  now rewrite (match_at_prev p q s H).
Qed.

Lemma shift_nil m : shift [] m = m.
Proof. now destruct m as [[[? ?] ?]|]. Qed.

Lemma shift_shift a b m : shift a (shift b m) = shift (a ++ b) m.
Proof. destruct m as [[[? ?] ?]|]; simpl; [now rewrite app_assoc | reflexivity]. Qed.

Lemma search_sound prev s b g rest :
  search r prev s = Some (b, g, rest) ->
  s = b ++ delim r ++ g ++ delim r ++ rest /\ g <> []
  /\ lookbehind_ok (last_char b prev) = true
  /\ lookbehind_ok (last_char g None) = true.
Proof.
  revert prev b; induction s as [|c s IH]; intros prev b;
    rewrite search_unfold.
  - destruct (match_at r prev []) as [[g0 rest0]|] eqn:Hm; [|discriminate].
    intros [= <- <- <-]. apply match_at_sound in Hm as (? & ? & ? & ?). auto.
  - destruct (match_at r prev (c :: s)) as [[g0 rest0]|] eqn:Hm.
    + intros [= <- <- <-]. apply match_at_sound in Hm as (? & ? & ? & ?). auto.
    + destruct (search r (Some c) s) as [[[b' g'] rest']|] eqn:Hs;
        [|discriminate].
      intros [= <- <- <-]. apply IH in Hs as (-> & ? & ? & ?).
      split; [reflexivity|]. split; [assumption|]. split; [|assumption].
      simpl app. now rewrite last_char_cons.
Qed.

(** No start position before the leftmost match matches. *)
Lemma search_before prev s b g rest :
  search r prev s = Some (b, g, rest) ->
  forall b1 c b2, b = b1 ++ c :: b2 ->
    match_at r (last_char b1 prev)
      (c :: b2 ++ delim r ++ g ++ delim r ++ rest) = None.
Proof.
  revert prev b; induction s as [|c s IH]; intros prev b;
    rewrite search_unfold.
  - destruct (match_at r prev []) as [[g0 rest0]|]; [|discriminate].
    intros [= <- <- <-] [|? ?] ? ? ?; discriminate.
  - destruct (match_at r prev (c :: s)) as [[g0 rest0]|] eqn:Hm.
    + intros [= <- <- <-] [|? ?] ? ? ?; discriminate.
    + destruct (search r (Some c) s) as [[[b' g'] rest']|] eqn:Hs;
        [|discriminate].
      intros [= <- <- <-] b1 x b2 Hb.
      pose proof (search_sound _ _ _ _ _ Hs) as (Hs' & _).
      destruct b1 as [|y b1]; simpl in Hb.
      * injection Hb as <- <-. simpl. now rewrite <- Hs'.
      * injection Hb as <- ->. rewrite last_char_cons.
        now apply (IH _ _ Hs b1 x b2).
Qed.

(** Text in which no start position matches is skipped. *)
Lemma search_skip prev b t :
  (forall b1 c b2, b = b1 ++ c :: b2 ->
     match_at r (last_char b1 prev) (c :: b2 ++ t) = None) ->
  search r prev (b ++ t) = shift b (search r (last_char b prev) t).
Proof.
  revert prev; induction b as [|c b IH]; intros prev Hnone.
  - simpl. now destruct (search r prev t) as [[[? ?] ?]|].
  - change ((c :: b) ++ t) with (c :: (b ++ t)). rewrite search_unfold.
    pose proof (Hnone [] c b eq_refl) as H0. simpl in H0. rewrite H0.
    rewrite IH, shift_shift, last_char_cons; [reflexivity|].
    intros b1 x b2 ->. specialize (Hnone (c :: b1) x b2 eq_refl).
    now rewrite last_char_cons in Hnone.
Qed.

(** Before the leftmost match there is no opening delimiter that is not
    escaped: it would have matched, up to the opening or the closing
    delimiter of the match that was found. *)
Lemma search_no_opening prev s b g rest :
  search r prev s = Some (b, g, rest) ->
  forall b1 c b2, b = b1 ++ c :: b2 ->
    lookbehind_ok (last_char b1 prev) = false
    \/ startswith (delim r) (c :: b2 ++ delim r ++ g ++ delim r ++ rest)
       = false.
Proof.
  intros Hs b1 c b2 Hb.
  pose proof (search_before _ _ _ _ _ Hs b1 c b2 Hb) as Hnone.
  pose proof (search_sound _ _ _ _ _ Hs) as (_ & Hg & Hlb & Hlg).
  destruct (lookbehind_ok (last_char b1 prev)) eqn:Hl; [right | now left].
  destruct (startswith (delim r) _) eqn:Hsw; [exfalso | reflexivity].
  apply startswith_spec in Hsw as [x Hx].
  assert (Hsome : exists g' rest', g' <> []
            /\ lookbehind_ok (last_char g' None) = true
            /\ x = g' ++ delim r ++ rest').
  { change (c :: b2 ++ delim r ++ g ++ delim r ++ rest)
      with ((c :: b2) ++ delim r ++ g ++ delim r ++ rest) in Hx.
    apply app_eq_app in Hx as [l [[H1 H2]|[H1 H2]]].
    - (* the delimiter lies before the match *)
      destruct l as [|y l].
      + exists (delim r ++ g), rest. split; [|split].
        * destruct (delim r); [assumption | discriminate].
        * rewrite last_char_app. now rewrite (last_char_nonempty g _ None).
        * rewrite H2. simpl. now rewrite <- !app_assoc.
      + exists (y :: l), (g ++ delim r ++ rest). split; [discriminate|].
        split; [|now rewrite H2].
        rewrite Hb, last_char_app, H1, last_char_app in Hlb.
        now rewrite (last_char_nonempty (y :: l) _ None) in Hlb.
    - (* the delimiter reaches into the match *)
      apply app_eq_app in H2 as [l' [[H3 H4]|[H3 H4]]].
      + exists (l' ++ g), rest. split; [|split].
        * destruct l'; [assumption | discriminate].
        * rewrite last_char_app. now rewrite (last_char_nonempty g _ None).
        * rewrite H4. now rewrite <- !app_assoc.
      + exfalso. apply (f_equal (@List.length _)) in H1, H3.
        rewrite !length_app in *. simpl in *. lia. }
  destruct Hsome as (g' & rest' & Hne' & Hok' & ->).
  rewrite Hx in Hnone.
  destruct (match_at_complete (last_char b1 prev) g' rest' Hl Hne' Hok')
    as [m Hm].
  congruence.
Qed.

End PatternFacts.

(** ** Successive matches and successive substitutions *)

Section ScanFacts.

Variable r : pattern.

Lemma scan_unfold fuel prev s :
  scan (S fuel) r prev s =
  match search r prev s with
  | None => ([], s)
  | Some (b, g, rest) =>
      let prev' := last_char (delim r) (last_char g (last_char b prev)) in
      let '(ms, tl) := scan fuel r prev' rest in
      ((b, g) :: ms, tl)
  end.
Proof. reflexivity. Qed.

(** The matches and the text between them make up the scanned text. *)
Lemma scan_rebuild fuel prev s ms tl :
  scan fuel r prev s = (ms, tl) -> rebuild (delim r) ms tl = s.
Proof.
  revert prev s ms tl; induction fuel as [|fuel IH]; intros prev s ms tl.
  - simpl. now intros [= <- <-].
  - rewrite scan_unfold.
    destruct (search r prev s) as [[[b g] rest]|] eqn:Hs;
      [|now intros [= <- <-]].
    cbn zeta. destruct (scan fuel r _ rest) as [ms' tl'] eqn:Hsc.
    intros [= <- <-]. simpl. rewrite (IH _ _ _ _ Hsc).
    now apply search_sound in Hs as (-> & _).
Qed.

(** The look-behind only matters through its verdict. *)
Lemma scan_prev fuel p q s :
  lookbehind_ok p = lookbehind_ok q -> scan fuel r p s = scan fuel r q s.
Proof.
  intros H. destruct fuel as [|fuel]; [reflexivity|].
  rewrite !scan_unfold, (search_prev r p q s H).
  destruct (search r q s) as [[[b g] rest]|] eqn:Hs; [|reflexivity].
  apply search_sound in Hs as (_ & Hg & _).
  cbn zeta.
  now rewrite (last_char_nonempty g (last_char b p) (last_char b q) Hg).
Qed.

(** With fuel beyond the length of the text, the scan stops only when no
    match is left. *)
Lemma scan_exhaustive fuel prev s ms tl :
  (List.length s < fuel)%nat ->
  scan fuel r prev s = (ms, tl) ->
  exists prev', search r prev' tl = None
    /\ (ms = [] -> prev' = prev)
    /\ (ms <> [] -> prev' = last_char (delim r) None
                    \/ (delim r = [] /\ lookbehind_ok prev' = true)).
Proof.
  revert prev s ms tl; induction fuel as [|fuel IH]; intros prev s ms tl Hlen;
    [lia|].
  rewrite scan_unfold.
  destruct (search r prev s) as [[[b g] rest]|] eqn:Hs.
  - cbn zeta. destruct (scan fuel r _ rest) as [ms' tl'] eqn:Hsc.
    intros [= <- <-].
    pose proof (search_sound _ _ _ _ _ _ Hs) as (Heq & Hg & _ & Hlg).
    apply IH in Hsc as (prev' & Hnone & Hnil & Hcons).
    + exists prev'. split; [assumption|]. split; [discriminate|]. intros _.
      destruct ms' as [|m ms'].
      * rewrite Hnil by reflexivity.
        destruct (delim r) as [|x d] eqn:Hd; [right | now left].
        split; [reflexivity|]. simpl.
        now rewrite (last_char_nonempty g _ None).
      * apply Hcons. discriminate.
    + apply (f_equal (@List.length _)) in Heq. rewrite !length_app in Heq.
      destruct g; [contradiction|]. simpl in Heq. lia.
  - intros [= <- <-]. exists prev. split; [assumption|].
    split; [reflexivity | contradiction].
Qed.

(** More fuel than the length of the text changes nothing. *)
Lemma scan_fuel fuel fuel' prev s :
  (List.length s < fuel)%nat -> (List.length s < fuel')%nat ->
  scan fuel r prev s = scan fuel' r prev s.
Proof.
  revert fuel' prev s; induction fuel as [|fuel IH];
    intros fuel' prev s H1 H2; [lia|].
  destruct fuel' as [|fuel']; [lia|].
  rewrite !scan_unfold.
  destruct (search r prev s) as [[[b g] rest]|] eqn:Hs; [|reflexivity].
  pose proof (search_sound _ _ _ _ _ _ Hs) as (Heq & Hg & _).
  cbn zeta. rewrite (IH fuel'); [reflexivity| |];
    apply (f_equal (@List.length _)) in Heq; rewrite !length_app in Heq;
    destruct g; try contradiction; simpl in Heq; lia.
Qed.

Lemma finditer_exhaustive s ms tl :
  good_delim r -> finditer r s = (ms, tl) -> search r None tl = None.
Proof.
  intros Hgood Hf. unfold finditer in Hf.
  apply scan_exhaustive in Hf as (prev' & Hnone & Hnil & Hcons); [|lia].
  destruct ms as [|m ms].
  - now rewrite <- (Hnil eq_refl).
  - rewrite <- Hnone. apply search_prev.
    destruct Hcons as [-> | [_ ->]]; [discriminate | | reflexivity].
    now rewrite Hgood.
Qed.

(** *** Substituting the matches one after the other *)

Lemma inert_nil : inert r [].
Proof. intros t p Hp. simpl. rewrite shift_nil. now apply search_prev. Qed.

(** The text before a match stays free of match starts when the match is
    replaced by a continuation that is stable for the delimiter. *)
Lemma search_before_stable prev s b g rest t :
  search r prev s = Some (b, g, rest) ->
  stable_for (delim r) t ->
  search r prev (b ++ t) = shift b (search r (last_char b prev) t).
Proof.
  intros Hs Hst. apply search_skip. intros b1 c b2 Hb.
  destruct (search_no_opening r _ _ _ _ _ Hs b1 c b2 Hb) as [Hl|Hsw].
  - now apply match_at_escaped.
  - apply match_at_no_delim.
    apply (Hst (c :: b2) (g ++ delim r ++ rest)); [discriminate | assumption].
Qed.

Lemma inert_extend pre prev s b g rest repl :
  inert r pre -> lookbehind_ok prev = true -> neutral r repl ->
  search r prev s = Some (b, g, rest) ->
  inert r (pre ++ b ++ repl).
Proof.
  intros Hpre Hprev Hrepl Hs t p Hp.
  destruct (Hrepl t) as [Hst Hin].
  pose proof (search_sound r _ _ _ _ _ Hs) as (_ & _ & Hlb & _).
  rewrite <- !app_assoc, (Hpre _ prev Hprev).
  rewrite (search_before_stable _ _ _ _ _ _ Hs Hst).
  rewrite (Hin _ p Hlb Hp), !shift_shift. now rewrite <- !app_assoc.
Qed.

Lemma sub_at_match pre prev s b g rest repl :
  inert r pre -> lookbehind_ok prev = true ->
  search r prev s = Some (b, g, rest) ->
  sub r repl (pre ++ s) = (pre ++ b ++ repl) ++ rest.
Proof.
  intros Hpre Hprev Hs. unfold sub.
  rewrite (Hpre _ prev Hprev), Hs. simpl. now rewrite <- !app_assoc.
Qed.

(** Substituting once per match, in order, replaces the matches of the
    scan from left to right. *)
Lemma sub_chain fuel :
  good_delim r ->
  forall ms prev s tl pre repls,
    Forall (neutral r) repls ->
    inert r pre -> lookbehind_ok prev = true ->
    scan fuel r prev s = (ms, tl) ->
    (List.length repls <= List.length ms)%nat ->
    fold_left (fun pg rp => sub r rp pg) repls (pre ++ s)
    = pre ++ weave (delim r) ms repls tl.
Proof.
  intros Hgood.
  induction fuel as [|fuel IH]; intros ms prev s tl pre repls Hn Hpre Hprev.
  - simpl. intros [= <- <-] Hlen. destruct repls; [reflexivity|].
    simpl in Hlen. lia.
  - rewrite scan_unfold.
    destruct (search r prev s) as [[[b g] rest]|] eqn:Hs.
    + cbn zeta. destruct (scan fuel r _ rest) as [ms' tl'] eqn:Hsc.
      intros [= <- <-] Hlen.
      destruct repls as [|rp repls].
      * simpl. rewrite (scan_rebuild _ _ _ _ _ Hsc).
        now apply search_sound in Hs as (-> & _).
      * inversion Hn as [|? ? Hrp Hn']; subst. cbn [fold_left].
        rewrite (sub_at_match _ _ _ _ _ _ rp Hpre Hprev Hs).
        rewrite (IH _ _ _ _ _ _ Hn'
                   (inert_extend _ _ _ _ _ _ _ Hpre Hprev Hrp Hs)
                   (Hgood _) Hsc); [|simpl in Hlen; lia].
        simpl. now rewrite <- !app_assoc.
    + intros [= <- <-] Hlen. destruct repls; [reflexivity|].
      simpl in Hlen. lia.
Qed.


End ScanFacts.

(** ** The three delimiters *)

Section Delimiters.

Lemma good_delim_text : good_delim re_textmode.
Proof. intros p. reflexivity. Qed.

Lemma good_delim_math : good_delim re_mathmode.
Proof. intros p. reflexivity. Qed.

Lemma good_delim_preamble : good_delim re_preamblemode.
Proof. intros p. reflexivity. Qed.

(** Cutting a preamble region out never completes a [%%] that was not
    there before: what precedes the region and could begin one is followed
    by [%] either way. *)
Lemma stable_for_preamble t : stable_for config_delimiters_preamble t.
Proof.
  intros x z Hx. destruct x as [|c [|c' x]]; [contradiction| |].
  - unfold config_delimiters_preamble. cbn [startswith app].
    rewrite N.eqb_refl. destruct (37 =? c); [discriminate | reflexivity].
  - unfold config_delimiters_preamble. cbn [startswith app]. auto.
Qed.

Lemma neutral_preamble_nil : neutral re_preamblemode [].
Proof.
  intros t. split; [apply stable_for_preamble|].
  intros prev p Hprev Hp. simpl. rewrite shift_nil.
  apply search_prev. congruence.
Qed.

(** A replacement made of characters foreign to the delimiter, ending in
    something else than a backslash. *)
Lemma stable_for_foreign d c repl t :
  ~ In c d -> stable_for d (c :: repl ++ t).
Proof.
  intros Hc x z _. revert x.
  assert (Hgen : forall d' x, incl d' d ->
            startswith d' (x ++ d ++ z) = false ->
            startswith d' (x ++ c :: repl ++ t) = false).
  { intros d' x; revert d'; induction x as [|y x IH]; intros d' Hincl.
    - destruct d' as [|e d']; [discriminate|]. intros _. simpl.
      destruct (N.eqb_spec e c) as [->|Hne]; [|reflexivity].
      exfalso. apply Hc, Hincl. now left.
    - destruct d' as [|e d']; [discriminate|]. simpl.
      destruct (e =? y); [|reflexivity]. simpl. apply IH.
      intros a Ha. apply Hincl. now right. }
  intros x. apply Hgen, incl_refl.
Qed.

Lemma neutral_foreign r c repl :
  Forall (fun x => ~ In x (delim r)) (c :: repl) ->
  delim r <> [] ->
  lookbehind_ok (last_char (c :: repl) None) = true ->
  neutral r (c :: repl).
Proof.
  intros Hall Hd Hlast t. split.
  - inversion Hall; subst. now apply stable_for_foreign.
  - intros prev p Hprev Hp. rewrite search_skip.
    + f_equal. apply search_prev. rewrite Hp. exact Hlast.
    + intros b1 x b2 Hb. apply match_at_no_delim.
      destruct (delim r) as [|e d] eqn:Hdr; [contradiction|]. simpl.
      destruct (N.eqb_spec e x) as [->|Hne]; [|reflexivity].
      exfalso. rewrite List.Forall_forall in Hall. apply (Hall x).
      * rewrite Hb. apply in_or_app. right. now left.
      * now left.
Qed.

End Delimiters.

(** ** The preamble loop *)

Section Preamble.

Lemma fold_preamble_step preambles tp pg :
  fold_left preamble_step preambles (tp, pg) =
  (tp ++ concat (List.map (fun p => p ++ [newline]) preambles),
   fold_left (fun pg rp => sub re_preamblemode rp pg)
     (List.map (fun _ => []) preambles) pg).
Proof.
  revert tp pg; induction preambles as [|p ps IH]; intros tp pg; simpl.
  - now rewrite app_nil_r.
  - unfold preamble_step at 2. simpl. rewrite IH.
    now rewrite <- !app_assoc.
Qed.

Lemma weave_nil d ms tl :
  weave d ms (List.map (fun _ => []) (List.map snd ms)) tl = cut_matches ms tl.
Proof.
  induction ms as [|[b g] ms IH]; simpl; [reflexivity|]. now rewrite IH.
Qed.

(** The loop deletes exactly the regions [findall] reported, and appends
    their texts in that order. *)
Lemma absorb_preambles_spec tp pg ms tl :
  finditer re_preamblemode pg = (ms, tl) ->
  absorb_preambles tp pg =
  (tp ++ config_general_preamble
      ++ concat (List.map (fun m => snd m ++ [newline]) ms)
      ++ begin_document,
   cut_matches ms tl).
Proof.
  intros Hf. unfold absorb_preambles, findall. rewrite Hf. cbn [fst].
  rewrite fold_preamble_step. f_equal.
  - rewrite <- !app_assoc. do 2 f_equal. now rewrite List.map_map.
  - pose proof (sub_chain re_preamblemode (S (List.length pg))
                  good_delim_preamble ms None pg tl []
                  (List.map (fun _ => []) (List.map snd ms))) as H.
    simpl app in H. rewrite H; [apply weave_nil| | | | |].
    + apply List.Forall_forall. intros x Hx.
      apply List.in_map_iff in Hx as (? & <- & _). apply neutral_preamble_nil.
    + apply inert_nil.
    + reflexivity.
    + exact Hf.
    + now rewrite !length_map.
Qed.

End Preamble.

(** ** The expression loop *)

Section Loop.

Variable w : world.
Variable c : gmap pystr pystr.
Variable preamble : pystr.

Lemma step_page ls e :
  page (step w c preamble ls e)
  = sub (fst (fst e))
      (replacement (snd (fst e)) (md5_hexdigest w (snd e)) (S (id ls))
         (step_data w c preamble e))
      (page ls).
Proof.
  destruct e as [[reg m] expr]. unfold step, step_data. cbn [fst snd].
  destruct (c !! md5_hexdigest w expr); [reflexivity|].
  destruct (_latex_to_base64 w preamble expr m) as [evs [d|x]]; reflexivity.
Qed.


Lemma step_id ls e : id (step w c preamble ls e) = S (id ls).
Proof.
  destruct e as [[reg m] expr]. unfold step.
  destruct (c !! md5_hexdigest w expr); [reflexivity|].
  destruct (_latex_to_base64 w preamble expr m) as [evs [d|x]]; reflexivity.
Qed.

Lemma step_new_cache ls e :
  new_cache (step w c preamble ls e)
  = match c !! md5_hexdigest w (snd e) with
    | Some _ => new_cache ls
    | None =>
        match snd (_latex_to_base64 w preamble (snd e) (snd (fst e))) with
        | Ok data => dict_set (md5_hexdigest w (snd e)) data (new_cache ls)
        | Raise _ => new_cache ls
        end
    end.
Proof.
  destruct e as [[reg m] expr]. unfold step. cbn [fst snd].
  destruct (c !! md5_hexdigest w expr); [reflexivity|].
  destruct (_latex_to_base64 w preamble expr m) as [evs [d|x]]; reflexivity.
Qed.


Lemma loop_id es ls :
  id (fold_left (step w c preamble) es ls) = (id ls + List.length es)%nat.
Proof.
  revert ls; induction es as [|e es IH]; intros ls; simpl; [lia|].
  rewrite IH, step_id. lia.
Qed.



End Loop.

Lemma render_preamble w st preamble page1 :
  tex_preamble (fst (render w st preamble page1)) = preamble.
Proof.
  unfold render. destruct (extract page1); [reflexivity|].
  destruct (append _ _); reflexivity.
Qed.



(** ** Preamble regions and the growing preamble *)

Lemma run_render w st lines ms tl :
  finditer re_preamblemode (join [newline] lines) = (ms, tl) ->
  run w st lines
  = render w st
      (tex_preamble st ++ config_general_preamble
       ++ concat (List.map (fun m => snd m ++ [newline]) ms)
       ++ begin_document)
      (cut_matches ms tl).
Proof.
  intros Hf. unfold run. now rewrite (absorb_preambles_spec _ _ _ _ Hf).
Qed.

(** The preamble after one call of [run]. *)
Lemma run_preamble w st lines :
  tex_preamble (fst (run w st lines))
  = tex_preamble st ++ config_general_preamble
    ++ concat (List.map (fun p => p ++ [newline])
                 (findall re_preamblemode (join [newline] lines)))
    ++ begin_document.
Proof.
  destruct (finditer re_preamblemode (join [newline] lines)) as [ms tl] eqn:Hf.
  rewrite (run_render _ _ _ _ _ Hf), render_preamble.
  unfold findall. rewrite Hf. cbn [fst]. now rewrite List.map_map.
Qed.



Lemma begin_document_nonempty : begin_document <> [].
Proof. discriminate. Qed.

Lemma runs_preamble w docs st :
  exists ext, tex_preamble (runs w st docs) = tex_preamble st ++ ext.
Proof.
  revert st; induction docs as [|d docs IH]; intros st.
  - exists []. simpl. now rewrite app_nil_r.
  - destruct (IH (fst (run w st d))) as [ext Hext].
    change (runs w st (d :: docs)) with (runs w (fst (run w st d)) docs).
    rewrite Hext, run_preamble.
    eexists. now rewrite <- !app_assoc.
Qed.

(** C10.  [run] never resets the preamble of the instance.  One call
    leaves it as it was at the start of the call, followed by the
    configured extra preamble, the fragments of that document and the
    [\begin{document}] line; and after any further calls on the instance
    (the documents [later], then [lines']) the preamble is the one of the
    earlier call followed by a non-empty extension. *)
Theorem preamble_never_reset (w : world) (st : state)
  (lines : list pystr) (later : list (list pystr)) (lines' : list pystr) :
  let st1 := fst (run w st lines) in
  let st2 := fst (run w (runs w st1 later) lines') in
  tex_preamble st1
  = tex_preamble st ++ config_general_preamble
    ++ concat (List.map (fun p => p ++ [newline])
                 (findall re_preamblemode (join [newline] lines)))
    ++ begin_document
  /\ exists ext, ext <> [] /\ tex_preamble st2 = tex_preamble st1 ++ ext.
Proof.
  intros st1 st2. split; [apply run_preamble|].
  subst st2. rewrite run_preamble.
  destruct (runs_preamble w later st1) as [ext ->].
  eexists. split; [|now rewrite <- !app_assoc].
  intros H. apply app_eq_nil in H as [_ H]. apply app_eq_nil in H as [_ H].
  apply app_eq_nil in H as [_ H]. now apply begin_document_nonempty.
Qed.

(** ** Documents without regions *)

Lemma findall_nil_finditer r s :
  findall r s = [] -> finditer r s = ([], s).
Proof.
  unfold findall. destruct (finditer r s) as [ms tl] eqn:Hf. cbn [fst].
  destruct ms; [|discriminate]. intros _.
  apply scan_rebuild in Hf. simpl in Hf. now subst.
Qed.

(** C4.  On a document in which none of the three patterns matches, [run]
    returns the joined text split at the newlines again, which joins back to
    the same text and is the very list of lines it was given when that list
    is not empty and no line contains a newline.  Nothing is printed or run,
    and the cache file and the cache are as they were. *)
Theorem no_regions_noop (w : world) (st : state) (lines : list pystr) :
  let page0 := join [newline] lines in
  findall re_preamblemode page0 = [] ->
  findall re_textmode page0 = [] ->
  findall re_mathmode page0 = [] ->
  snd (run w st lines) = Ok (split newline page0)
  /\ join [newline] (split newline page0) = page0
  /\ (lines <> [] -> Forall (fun l => ~ In newline l) lines ->
      snd (run w st lines) = Ok lines)
  /\ trace (fst (run w st lines)) = trace st
  /\ cache_file (fst (run w st lines)) = cache_file st
  /\ cached (fst (run w st lines)) = cached st.
Proof.
  intros page0 Hp Ht Hm.
  rewrite (run_render w st lines [] page0 (findall_nil_finditer _ _ Hp)).
  cbn [cut_matches]. unfold render, extract. fold page0.
  rewrite Ht, Hm. cbn [List.map app fst snd trace cache_file cached].
  split; [reflexivity|]. split; [apply join_split|].
  split; [|auto].
  intros Hne Hall. f_equal. now apply split_join.
Qed.

(** ** Where the matches are *)

Section Spans.

Variable r : pattern.

Lemma char_before_app pre s :
  char_before (pre ++ s) (List.length pre) = last_char pre None.
Proof.
  destruct pre as [|x pre]; [reflexivity|].
  cbn [char_before List.length last_char].
  revert x; induction pre as [|y pre IH]; intros x; [reflexivity|].
  rewrite last_cons. cbn [List.length app nth_error]. apply IH.
Qed.

Lemma skipn_app_length (a b : pystr) : skipn (List.length a) (a ++ b) = b.
Proof. induction a; simpl; auto. Qed.

Lemma firstn_app_length (a b : pystr) : firstn (List.length a) (a ++ b) = a.
Proof. induction a; simpl; [reflexivity | now f_equal]. Qed.

(** Every match of a scan is where its span says, follows the one before
    it, and has both delimiters free of a preceding backslash. *)
Lemma scan_spans fuel :
  forall pre prev s ms tl,
    prev = last_char pre None ->
    scan fuel r prev s = (ms, tl) ->
    let sps := spans (delim r) (List.length pre) ms in
    Forall (occurs_at (delim r) (pre ++ s)) sps
    /\ Forall (unescaped (delim r) (pre ++ s)) sps
    /\ ascending (List.length pre) sps.
Proof.
  induction fuel as [|fuel IH]; intros pre prev s ms tl Hprev.
  - simpl. intros [= <- <-]. simpl. auto.
  - rewrite scan_unfold.
    destruct (search r prev s) as [[[b g] rest]|] eqn:Hs;
      [|intros [= <- <-]; simpl; auto].
    cbn zeta. destruct (scan fuel r _ rest) as [ms' tl'] eqn:Hsc.
    intros [= <- <-].
    pose proof (search_sound r _ _ _ _ _ Hs) as (Heq & Hg & Hlb & Hlg).
    set (d := delim r) in *.
    assert (Hprev' : last_char d (last_char g (last_char b prev))
                     = last_char (pre ++ b ++ d ++ g ++ d) None)
      by (rewrite !last_char_app;
          now rewrite (last_char_nonempty g (last_char b prev) None),
            (last_char_nonempty g (last_char d _) None)).
    specialize (IH (pre ++ b ++ d ++ g ++ d) _ rest ms' tl' Hprev' Hsc).
    cbn zeta in IH. rewrite <- !app_assoc in IH.
    rewrite !length_app in IH.
    destruct IH as (IH1 & IH2 & IH3).
    cbn [spans].
    replace (List.length pre + List.length b + List.length d + List.length g
             + List.length d)%nat
      with (List.length pre + (List.length b + (List.length d
             + (List.length g + List.length d))))%nat by lia.
    rewrite Heq.
    split; [|split].
    + constructor; [|exact IH1]. split; [lia|].
      replace (pre ++ b ++ d ++ g ++ d ++ rest)
        with ((pre ++ b) ++ (d ++ g ++ d) ++ rest)
        by now rewrite <- !app_assoc.
      replace (_ - _)%nat with (List.length (d ++ g ++ d))
        by (rewrite !length_app; lia).
      replace (List.length pre + List.length b)%nat
        with (List.length (pre ++ b)) by now rewrite length_app.
      rewrite skipn_app_length. apply firstn_app_length.
    + constructor; [|exact IH2]. split.
      * replace (pre ++ b ++ d ++ g ++ d ++ rest)
          with ((pre ++ b) ++ d ++ g ++ d ++ rest)
          by now rewrite <- !app_assoc.
        replace (List.length pre + List.length b)%nat
          with (List.length (pre ++ b)) by now rewrite length_app.
        rewrite char_before_app, last_char_app.
        now subst prev.
      * replace (pre ++ b ++ d ++ g ++ d ++ rest)
          with ((pre ++ b ++ d ++ g) ++ d ++ rest)
          by now rewrite <- !app_assoc.
        replace (_ - _)%nat with (List.length (pre ++ b ++ d ++ g))
          by (rewrite !length_app; lia).
        rewrite char_before_app, !app_assoc, last_char_app.
        now rewrite (last_char_nonempty g _ None).
    + cbn [ascending]. split; [lia|]. split; [|exact IH3].
      destruct g; [contradiction|]. simpl. lia.
Qed.

Lemma finditer_spans s :
  let sps := spans (delim r) O (fst (finditer r s)) in
  Forall (occurs_at (delim r) s) sps
  /\ Forall (unescaped (delim r) s) sps
  /\ ascending O sps.
Proof.
  destruct (finditer r s) as [ms tl] eqn:Hf.
  exact (scan_spans _ [] None s ms tl eq_refl Hf).
Qed.

End Spans.

(** ** Extraction *)

Section Extraction.

Lemma search_skip_foreign r e d prev pre t :
  delim r = e :: d -> Forall (fun c => c <> e) pre ->
  search r prev (pre ++ t) = shift pre (search r (last_char pre prev) t).
Proof.
  intros Hd Hall. apply search_skip. intros b1 c b2 Hb.
  apply match_at_no_delim. rewrite Hd. simpl.
  destruct (N.eqb_spec e c) as [->|Hne]; [|reflexivity].
  exfalso. rewrite List.Forall_forall in Hall. apply (Hall c); [|reflexivity].
  rewrite Hb. apply in_or_app. right. now left.
Qed.

Lemma search_none_foreign r e d prev s :
  delim r = e :: d -> Forall (fun c => c <> e) s -> search r prev s = None.
Proof.
  intros Hd Hall. rewrite <- (app_nil_r s).
  rewrite (search_skip_foreign r e d prev s [] Hd Hall).
  rewrite search_unfold. unfold match_at. rewrite Hd. simpl.
  now destruct (lookbehind_ok _).
Qed.

Lemma findall_none_foreign r e d s :
  delim r = e :: d -> Forall (fun c => c <> e) s -> findall r s = [].
Proof.
  intros Hd Hall. unfold findall, finditer. rewrite scan_unfold.
  now rewrite (search_none_foreign r e d None s Hd Hall).
Qed.

(** A scan that finds one match and nothing after it. *)
Lemma findall_single r s b g rest :
  search r None s = Some (b, g, rest) ->
  (forall p, search r p rest = None) ->
  findall r s = [g].
Proof.
  intros Hs Hnone. unfold findall, finditer. rewrite scan_unfold, Hs.
  cbn zeta. destruct (List.length s) as [|n]; [reflexivity|].
  rewrite scan_unfold, Hnone. reflexivity.
Qed.

End Extraction.

(** C6.  The list the rewriter consumes is made of the text-mode matches
    followed by the math-mode matches.  Within each class the matches are
    listed by increasing position: each is a delimited occurrence in the
    page at its span, the spans follow one another, and no match of the
    class is left after the last one.  So a math region that comes first in
    the document is still listed after a text region that follows it. *)
Theorem extraction_order (page : pystr) :
  let tms := fst (finditer re_textmode page) in
  let mms := fst (finditer re_mathmode page) in
  extract page
  = List.map (fun m => (re_textmode, false, snd m)) tms
    ++ List.map (fun m => (re_mathmode, true, snd m)) mms
  /\ Forall (occurs_at config_delimiters_text page)
       (spans config_delimiters_text O tms)
  /\ ascending O (spans config_delimiters_text O tms)
  /\ search re_textmode None (snd (finditer re_textmode page)) = None
  /\ Forall (occurs_at config_delimiters_math page)
       (spans config_delimiters_math O mms)
  /\ ascending O (spans config_delimiters_math O mms)
  /\ search re_mathmode None (snd (finditer re_mathmode page)) = None
  /\ extract (config_delimiters_math ++ py "a" ++ config_delimiters_math
              ++ py " %b%")
     = [(re_textmode, false, py "b"); (re_mathmode, true, py "a")].
Proof.
  intros tms mms.
  pose proof (finditer_spans re_textmode page) as (Ht1 & _ & Ht2).
  pose proof (finditer_spans re_mathmode page) as (Hm1 & _ & Hm2).
  split.
  { unfold extract, findall. now rewrite !List.map_map. }
  split; [exact Ht1|]. split; [exact Ht2|]. split.
  { destruct (finditer re_textmode page) as [ms tl] eqn:Hf.
    exact (finditer_exhaustive _ _ _ _ good_delim_text Hf). }
  split; [exact Hm1|]. split; [exact Hm2|]. split.
  { destruct (finditer re_mathmode page) as [ms tl] eqn:Hf.
    exact (finditer_exhaustive _ _ _ _ good_delim_math Hf). }
  reflexivity.
Qed.

Lemma delimiter_free_text s : delimiter_free s -> Forall (fun c => c <> 37) s.
Proof. apply List.Forall_impl. intros a. tauto. Qed.

Lemma delimiter_free_math s : delimiter_free s -> Forall (fun c => c <> 194) s.
Proof. apply List.Forall_impl. intros a. tauto. Qed.

(** An escaped math delimiter, then a math region: the region is the only
    match of the math pattern. *)
Lemma findall_math_after_escaped pre E post :
  delimiter_free pre -> delimiter_free E -> delimiter_free post ->
  E <> [] -> lookbehind_ok (last_char E None) = true ->
  findall re_mathmode
    (pre ++ backslash :: config_delimiters_math ++ config_delimiters_math
         ++ E ++ config_delimiters_math ++ post)
  = [E].
Proof.
  intros Hpre HE Hpost Hne Hlast.
  apply (findall_single _ _ (pre ++ [backslash; 194; 163]) E post).
  - rewrite (search_skip_foreign re_mathmode 194 [163] None pre _ eq_refl
               (delimiter_free_math _ Hpre)).
    change (Some (pre ++ [backslash; 194; 163], E, post))
      with (shift pre (Some ([backslash; 194; 163], E, post))).
    f_equal. unfold config_delimiters_math. cbn [app].
    rewrite search_unfold, match_at_no_delim by reflexivity.
    rewrite search_unfold, match_at_escaped by reflexivity.
    rewrite search_unfold, match_at_no_delim by reflexivity.
    rewrite search_unfold.
    unfold match_at. cbn [lookbehind_ok negb N.eqb backslash Pos.eqb].
    change (delim re_mathmode) with [194; 163].
    change (194 :: 163 :: E ++ 194 :: 163 :: post)
      with ([194; 163] ++ E ++ [194; 163] ++ post).
    rewrite strip_prefix_app, lazy_group_first; [reflexivity | assumption ..|].
    intros g1 g2 -> _ Hg2. right.
    destruct g2 as [|x g2]; [contradiction|].
    apply delimiter_free_math, Forall_app in HE as [_ HE].
    inversion HE as [|? ? Hx _]; subst.
    apply startswith_head_ne. congruence.
  - intros p. apply (search_none_foreign re_mathmode 194 [163]);
      [reflexivity | now apply delimiter_free_math].
Qed.

(** C2.  A delimiter that follows a backslash is never a boundary of a
    region: for every pattern [build_regexp] makes, the opening and the
    closing delimiter of every match [findall] lists, and of the match a
    substitution replaces, are occurrences that no backslash precedes.  In
    particular, in a text made of an escaped math delimiter followed at once
    by a math region, with no other delimiter around, the one expression
    extracted is the text between the two unescaped delimiters. *)
Theorem escaped_delimiters_not_boundaries (r : pattern) (page : pystr) :
  (forall start g stop,
     In (start, g, stop) (spans (delim r) O (fst (finditer r page))) ->
     occurs_at (delim r) page (start, g, stop)
     /\ forall p, char_before page p = Some backslash ->
          p <> start /\ p <> (stop - List.length (delim r))%nat)
  /\ (forall b g rest,
        search r None page = Some (b, g, rest) ->
        page = b ++ delim r ++ g ++ delim r ++ rest
        /\ last_char b None <> Some backslash
        /\ last_char g None <> Some backslash)
  /\ (forall pre E post,
        delimiter_free pre -> delimiter_free E -> delimiter_free post ->
        E <> [] -> last_char E None <> Some backslash ->
        extract (pre ++ backslash :: config_delimiters_math
                     ++ config_delimiters_math ++ E
                     ++ config_delimiters_math ++ post)
        = [(re_mathmode, true, E)]).
Proof.
  split; [|split].
  - intros start g stop Hin.
    pose proof (finditer_spans r page) as (Hocc & Hun & _).
    rewrite List.Forall_forall in Hocc, Hun.
    split; [exact (Hocc _ Hin)|].
    intros p Hp. destruct (Hun _ Hin) as [H1 H2].
    split; intros ->; rewrite Hp in *; discriminate.
  - intros b g rest Hs.
    apply search_sound in Hs as (Heq & _ & Hb & Hg).
    now rewrite !lookbehind_ok_spec in *.
  - intros pre E post Hpre HE Hpost Hne Hlast.
    apply lookbehind_ok_spec in Hlast.
    unfold extract.
    rewrite (findall_math_after_escaped pre E post) by assumption.
    rewrite (findall_none_foreign re_textmode 37 []); [reflexivity..|].
    apply Forall_app. split; [now apply delimiter_free_text|].
    constructor; [discriminate|].
    unfold config_delimiters_math. cbn [app].
    repeat (constructor; [discriminate|]).
    apply Forall_app. split; [now apply delimiter_free_text|].
    repeat (constructor; [discriminate|]).
    now apply delimiter_free_text.
Qed.

(** ** Loading the cache file *)

Section Loading.

Lemma load_lines_cons c line lines :
  load_lines c (line :: lines)
  = match entry_of line with
    | Some (k, v) => load_lines (<[k := v]> c) lines
    | None => (c, Raise ValueError)
    end.
Proof.
  unfold entry_of. cbn [load_lines].
  destruct (split space (strip newline line)) as [|k [|v [|x l]]]; reflexivity.
Qed.

Lemma load_lines_fst lines c :
  fst (load_lines c lines) = insert_all (leading_entries lines) c.
Proof.
  revert c; induction lines as [|line lines IH]; intros c; [reflexivity|].
  rewrite load_lines_cons. cbn [leading_entries].
  destruct (entry_of line) as [[k v]|]; [|reflexivity].
  now rewrite IH.
Qed.

Lemma leading_entries_stop good bad rest :
  entry_of bad = None ->
  leading_entries (good ++ bad :: rest) = leading_entries good.
Proof.
  intros Hbad. induction good as [|l good IH]; simpl.
  - now rewrite Hbad.
  - destruct (entry_of l); [now rewrite IH | reflexivity].
Qed.

Lemma load_lines_stop good bad rest c :
  Forall (fun l => is_Some (entry_of l)) good -> entry_of bad = None ->
  snd (load_lines c (good ++ bad :: rest)) = Raise ValueError.
Proof.
  intros Hgood Hbad. revert c.
  induction Hgood as [|l good [[k v] Hl] _ IH]; intros c.
  - simpl app. now rewrite load_lines_cons, Hbad.
  - simpl app. rewrite load_lines_cons, Hl. apply IH.
Qed.

Lemma load_lines_complete lines c :
  Forall (fun l => is_Some (entry_of l)) lines ->
  snd (load_lines c lines) = Ok tt.
Proof.
  intros Hall. revert c.
  induction Hall as [|l lines [[k v] Hl] _ IH]; intros c; [reflexivity|].
  rewrite load_lines_cons, Hl. apply IH.
Qed.

Lemma insert_all_keeps es c k :
  is_Some (c !! k) -> is_Some (insert_all es c !! k).
Proof.
  revert c; induction es as [|[k' v'] es IH]; intros c Hk; [exact Hk|].
  apply IH. change (is_Some (<[k' := v']> c !! k)).
  rewrite lookup_insert_is_Some.
  destruct (decide (k' = k)); auto.
Qed.

Lemma insert_all_in es c k v :
  In (k, v) es -> is_Some (insert_all es c !! k).
Proof.
  revert c; induction es as [|[k' v'] es IH]; intros c; [contradiction|].
  intros [[= -> ->]|Hin]; [|now apply IH].
  change (insert_all ((k, v) :: es) c) with (insert_all es (<[k := v]> c)).
  apply insert_all_keeps. rewrite lookup_insert_is_Some. auto.
Qed.



Lemma leading_entries_in good l k v :
  Forall (fun l => is_Some (entry_of l)) good ->
  In l good -> entry_of l = Some (k, v) -> In (k, v) (leading_entries good).
Proof.
  induction 1 as [|l' good [kv Hl'] _ IH]; [contradiction|].
  intros [->|Hin] Hl; simpl; rewrite Hl'.
  - left. congruence.
  - right. now apply IH.
Qed.

End Loading.

(** C9.  [__init__] never raises, whatever the cache file is.  A cache
    that cannot be opened leaves the dictionary as it was.  When the lines
    of the file are well formed up to a line that is not, loading stops at
    that line with the exception swallowed, and the dictionary holds the
    entries of the lines before it, inserted in order: each of their keys is
    present, and nothing that was in the dictionary is dropped. *)
Theorem cache_loading_tolerant (st : state) :
  exists st',
    __init__ st = Ok st'
    /\ (forall k, is_Some (cached st !! k) -> is_Some (cached st' !! k))
    /\ (cache_file st = Missing \/ cache_file st = Unreadable ->
        cached st' = cached st)
    /\ (forall content good bad rest,
          cache_file st = Text content ->
          readlines content = good ++ bad :: rest ->
          Forall (fun l => is_Some (entry_of l)) good ->
          entry_of bad = None ->
          snd (load_cache (cached st) (cache_file st)) = Raise ValueError
          /\ cached st' = insert_all (leading_entries good) (cached st)
          /\ forall l k v, In l good -> entry_of l = Some (k, v) ->
               is_Some (cached st' !! k)).
Proof.
  exists {| cached := fst (load_cache (cached st) (cache_file st));
            tex_preamble := base_preamble;
            cache_file := cache_file st;
            trace := trace st |}.
  split.
  { unfold __init__. now destruct (load_cache (cached st) (cache_file st)). }
  cbn [cached]. split; [|split].
  - intros k Hk. unfold load_cache.
    destruct (cache_file st); [exact Hk | exact Hk |].
    rewrite load_lines_fst. now apply insert_all_keeps.
  - intros [H|H]; now rewrite H.
  - intros content good bad rest Hfile Hlines Hgood Hbad.
    rewrite Hfile. cbn [load_cache]. rewrite Hlines.
    split; [now apply load_lines_stop|].
    rewrite load_lines_fst, leading_entries_stop by assumption.
    split; [reflexivity|].
    intros l k v Hin Hl.
    apply (insert_all_in _ _ k v). now apply (leading_entries_in good l).
Qed.

(** ** Un-escaping *)

Section Unescape.

(** One pass of [page.replace('\\' + tok, tok)]. *)
Variable tok : pystr.
Hypothesis tok_nonempty : tok <> [].

Local Abbreviation pass := (replace (backslash :: tok) tok).

Lemma replace_from_skip old new a s :
  replace_from old new (List.length a) (a ++ s) = replace_from old new O s.
Proof. induction a as [|x a IH]; [reflexivity | exact IH]. Qed.

Lemma pass_nil : pass [] = [].
Proof. reflexivity. Qed.

Lemma pass_other c s : c <> backslash -> pass (c :: s) = c :: pass s.
Proof.
  intros Hc. unfold replace. cbn [replace_from startswith].
  destruct (N.eqb_spec backslash c); [congruence | reflexivity].
Qed.

Lemma pass_escape s : pass (backslash :: tok ++ s) = tok ++ pass s.
Proof.
  unfold replace. cbn [replace_from].
  change (backslash :: tok ++ s) with ((backslash :: tok) ++ s).
  rewrite startswith_app. cbn [List.length Nat.pred].
  now rewrite replace_from_skip.
Qed.

Lemma pass_backslash s :
  startswith tok s = false -> pass (backslash :: s) = backslash :: pass s.
Proof.
  intros Hs. unfold replace. cbn [replace_from startswith].
  now rewrite N.eqb_refl, Hs.
Qed.


End Unescape.

Section UnescapePasses.

Lemma unescape_passes s :
  unescape s
  = replace [backslash; backslash] [backslash]
      (replace (backslash :: config_delimiters_math) config_delimiters_math
         (replace (backslash :: config_delimiters_text) config_delimiters_text
            (replace (backslash :: config_delimiters_preamble)
               config_delimiters_preamble s))).
Proof. reflexivity. Qed.



Lemma unescape_nil : unescape [] = [].
Proof. reflexivity. Qed.

Lemma unescape_other c s :
  c <> backslash -> unescape (c :: s) = c :: unescape s.
Proof.
  intros Hc. rewrite !unescape_passes. now rewrite !pass_other by assumption.
Qed.







Lemma unescape_backslash_end : unescape [backslash] = [backslash].
Proof. reflexivity. Qed.










End UnescapePasses.



(** ** Digests, payloads and counters *)

Section Tokens.

Lemma token_char_field c : token_char c = true -> field_char c.
Proof.
  unfold token_char, field_char, space, newline, carriage_return.
  intros H. repeat split; intros ->; discriminate H.
Qed.

Lemma token_char_plain c : token_char c = true -> plain_char c.
Proof.
  unfold token_char, plain_char, backslash.
  intros H. repeat split; intros ->; discriminate H.
Qed.

Lemma token_field s : token s -> field s.
Proof. apply List.Forall_impl, token_char_field. Qed.

Lemma token_plain s : token s -> plain s.
Proof. apply List.Forall_impl, token_char_plain. Qed.

Lemma digit_token i : token_char (Base64.digit i) = true.
Proof.
  unfold Base64.digit.
  assert (H : Forall (fun c => token_char c = true)
                (Base64.pad :: Base64.alphabet)).
  { apply List.Forall_forall. apply forallb_forall. vm_compute. reflexivity. }
  rewrite List.Forall_forall in H. apply H.
  destruct (Nat.lt_ge_cases (N.to_nat i) (List.length Base64.alphabet)).
  - right. now apply nth_In.
  - left. now rewrite nth_overflow.
Qed.

Lemma encode_token data : token (Base64.encode data).
Proof.
  assert (Hpad : token_char Base64.pad = true) by reflexivity.
  assert (H : forall n data, (List.length data <= n)%nat ->
                             token (Base64.encode data)).
  { clear data. induction n as [|n IH]; intros data Hlen.
    - destruct data; [constructor | simpl in Hlen; lia].
    - destruct data as [|a [|b [|c data]]]; cbn [Base64.encode].
      + constructor.
      + repeat constructor; auto using digit_token.
      + repeat constructor; auto using digit_token.
      + repeat (constructor; [apply digit_token|]).
        apply IH. simpl in Hlen. lia. }
  now apply (H (List.length data)).
Qed.

Lemma b64encode_token png : token (Base64.b64encode png).
Proof. apply encode_token. Qed.

(** A compilation that succeeds yields a base64 payload. *)
Lemma latex_to_base64_token w preamble tex m d :
  snd (_latex_to_base64 w preamble tex m) = Ok d -> token d.
Proof.
  unfold _latex_to_base64.
  destruct (latex w _); [destruct (dvipng w _)|]; cbn [snd];
    try discriminate.
  intros [= <-]. apply b64encode_token.
Qed.

Lemma string_of_uint_token d : token (py (NilEmpty.string_of_uint d)).
Proof. induction d; simpl; constructor; auto. Qed.

Lemma str_of_nat_token n : token (str_of_nat n).
Proof. apply string_of_uint_token. Qed.



End Tokens.

(** ** Reading back the lines [run] writes *)

Section CacheLines.

Lemma field_no_space s : field s -> ~ In space s.
Proof.
  intros H Hin. unfold field in H. rewrite List.Forall_forall in H.
  now destruct (H _ Hin) as [? _].
Qed.

Lemma field_no_newline s : field s -> Forall (fun c => c <> newline) s.
Proof.
  intros H. eapply List.Forall_impl; [|exact H].
  intros c (_ & Hc & _). exact Hc.
Qed.






Lemma cache_lines_eq nc : cache_lines nc = concat (List.map line_of nc).
Proof. unfold cache_lines. now rewrite flat_map_concat_map. Qed.



Lemma lstrip_same c s : lstrip c (c :: s) = lstrip c s.
Proof. cbn [lstrip]. now rewrite N.eqb_refl. Qed.

Lemma lstrip_keep c s :
  hd_error s <> Some c -> lstrip c s = s.
Proof.
  destruct s as [|x s]; [reflexivity|]. cbn [lstrip hd_error].
  destruct (N.eqb_spec x c); [congruence | reflexivity].
Qed.

Lemma entry_of_line k v :
  field k -> field v -> entry_of (line_of (k, v)) = Some (k, v).
Proof.
  intros Hk Hv. unfold entry_of, line_of. cbn [fst snd].
  assert (Hstrip : strip newline (k ++ [space] ++ v ++ [newline])
                   = k ++ [space] ++ v).
  { unfold strip.
    assert (H1 : lstrip newline (k ++ [space] ++ v ++ [newline])
                 = k ++ [space] ++ v ++ [newline]).
    { apply lstrip_keep. apply field_no_newline in Hk.
      destruct k as [|x k]; [discriminate|].
      inversion Hk; subst. cbn [app hd_error]. congruence. }
    rewrite H1.
    replace (k ++ [space] ++ v ++ [newline])
      with ((k ++ [space] ++ v) ++ [newline])
      by now rewrite <- !app_assoc.
    rewrite List.rev_app_distr.
    change (rev [newline] ++ rev (k ++ [space] ++ v))
      with (newline :: rev (k ++ [space] ++ v)).
    rewrite lstrip_same.
    assert (H2 : lstrip newline (rev (k ++ [space] ++ v))
                 = rev (k ++ [space] ++ v)).
    { apply lstrip_keep. rewrite app_assoc, List.rev_app_distr.
      apply field_no_newline in Hv.
      destruct (rev v) as [|x rv] eqn:Hr.
      - rewrite List.rev_app_distr. discriminate.
      - cbn [app hd_error]. intros [= ->].
        rewrite List.Forall_forall in Hv. apply (Hv newline); [|reflexivity].
        apply in_rev. rewrite Hr. now left. }
    rewrite H2. apply rev_involutive. }
  rewrite Hstrip. cbn [app].
  rewrite split_app_sep by now apply field_no_space.
  rewrite split_no_sep by now apply field_no_space.
  reflexivity.
Qed.





End CacheLines.

(** ** The entries of a run *)

Section NewCache.

Lemma dict_get_set_same k v d : dict_get k (dict_set k v d) = Some v.
Proof.
  induction d as [|[k' v'] d IH]; cbn [dict_set dict_get].
  - now rewrite str_eqb_refl.
  - destruct (str_eqb k k') eqn:E; cbn [dict_get]; rewrite ?E; auto.
    now rewrite str_eqb_refl.
Qed.


Lemma dict_set_keys k v d :
  List.map fst (dict_set k v d) = List.map fst d
  \/ (~ In k (List.map fst d) /\ List.map fst (dict_set k v d)
                                 = List.map fst d ++ [k]).
Proof.
  induction d as [|[k' v'] d IH]; cbn [dict_set List.map fst].
  - right. split; [intros [] | reflexivity].
  - destruct (str_eqb k k') eqn:E.
    + apply str_eqb_eq in E as <-. now left.
    + cbn [List.map fst]. destruct IH as [->|[Hnin ->]]; [now left|].
      right. split; [|reflexivity].
      intros [<-|Hin]; [|contradiction].
      now rewrite str_eqb_refl in E.
Qed.

Lemma dict_set_nodup k v d :
  List.NoDup (List.map fst d) -> List.NoDup (List.map fst (dict_set k v d)).
Proof.
  intros Hnd. destruct (dict_set_keys k v d) as [->|[Hnin ->]];
    [assumption|].
  apply List.NoDup_app; [assumption | |].
  - constructor; [intros [] | constructor].
  - intros x Hx [<-|[]]. contradiction.
Qed.



Variable w : world.
Variable c : gmap pystr pystr.
Variable preamble : pystr.






(** An expression found in the cache costs a look-up only. *)
Lemma step_cached ls r m E d :
  c !! md5_hexdigest w E = Some d ->
  let ls' := step w c preamble ls (r, m, E) in
  out ls' = out ls ++ [EvPrint (md5_hexdigest w E)]
  /\ new_cache ls' = new_cache ls
  /\ id ls' = S (id ls)
  /\ page ls' = sub r (replacement m (md5_hexdigest w E) (S (id ls)) d)
                  (page ls).
Proof.
  intros Hc. cbn zeta. unfold step. rewrite Hc. cbn. auto.
Qed.

End NewCache.

(** ** The cache across runs *)




(** ** Replacement texts *)

Section Replacements.

Lemma plain_charb_spec c : plain_charb c = true <-> plain_char c.
Proof.
  unfold plain_charb, plain_char.
  rewrite !andb_true_iff, !negb_true_iff, !N.eqb_neq. tauto.
Qed.

Lemma plain_of_bool s : forallb plain_charb s = true -> plain s.
Proof.
  intros H. apply List.Forall_forall. intros c Hc.
  apply plain_charb_spec. rewrite forallb_forall in H. now apply H.
Qed.

Lemma plain_app a b : plain a -> plain b -> plain (a ++ b).
Proof. intros Ha Hb. apply Forall_app. now split. Qed.


Lemma replacement_error m h n : replacement m h n [] = py "<p>ERROR</p>".
Proof. reflexivity. Qed.

Lemma replacement_plain m h n d :
  plain h -> plain d -> plain (replacement m h n d).
Proof.
  intros Hh Hd.
  assert (Hn : plain (str_of_nat n)) by apply token_plain, str_of_nat_token.
  unfold replacement, IMG_EXPR, INLINE_IMG_EXPR.
  destruct (truthy d); [destruct m|];
    repeat (apply plain_app; try assumption);
    apply plain_of_bool; vm_compute; reflexivity.
Qed.

(** A replacement is not empty and ends with [>]. *)
Lemma replacement_nonempty m h n d : replacement m h n d <> [].
Proof.
  unfold replacement, IMG_EXPR, INLINE_IMG_EXPR.
  destruct (truthy d); [destruct m|]; discriminate.
Qed.

Lemma replacement_last m h n d p :
  lookbehind_ok (last_char (replacement m h n d) p) = true.
Proof.
  unfold replacement, IMG_EXPR, INLINE_IMG_EXPR.
  destruct (truthy d); [destruct m|];
    rewrite ?app_assoc, ?last_char_app; reflexivity.
Qed.

Lemma replacement_neutral r m h n d :
  delim r <> [] -> Forall (fun c => ~ plain_char c) (delim r) ->
  plain h -> plain d ->
  neutral r (replacement m h n d).
Proof.
  intros Hd Hdel Hh Hdat.
  pose proof (replacement_plain m h n d Hh Hdat) as Hpl.
  pose proof (replacement_nonempty m h n d) as Hne.
  pose proof (replacement_last m h n d None) as Hlast.
  destruct (replacement m h n d) as [|x body]; [contradiction|].
  apply neutral_foreign; [|assumption..].
  eapply List.Forall_impl; [|exact Hpl].
  intros c Hc Hin. rewrite List.Forall_forall in Hdel. now apply (Hdel c).
Qed.

Variable w : world.
Variable c : gmap pystr pystr.
Variable preamble : pystr.

Lemma step_data_plain e : plain_cache c -> plain (step_data w c preamble e).
Proof.
  intros Hc. destruct e as [[r m] E]. unfold step_data.
  destruct (c !! _) as [d|] eqn:Hd; [exact (Hc _ _ Hd)|].
  destruct (snd (_latex_to_base64 w preamble E m)) as [d|x] eqn:Hl.
  - now apply token_plain, (latex_to_base64_token _ _ _ _ _ Hl).
  - constructor.
Qed.

Lemma replacements_neutral r n es :
  delim r <> [] -> Forall (fun c => ~ plain_char c) (delim r) ->
  plain_digest w -> plain_cache c ->
  Forall (neutral r) (replacements w c preamble n es).
Proof.
  intros Hd Hdel Hw Hc. revert n.
  induction es as [|e es IH]; intros n; cbn [replacements]; constructor.
  - apply replacement_neutral; auto using step_data_plain.
  - apply IH.
Qed.

Lemma replacements_length n es :
  List.length (replacements w c preamble n es) = List.length es.
Proof.
  revert n; induction es as [|e es IH]; intros n; simpl; auto.
Qed.

(** While the expressions are all of one pattern, the loop substitutes
    their replacement texts one after the other. *)
Lemma loop_page_single r es ls :
  Forall (fun e => fst (fst e) = r) es ->
  page (fold_left (step w c preamble) es ls)
  = fold_left (fun pg rp => sub r rp pg)
      (replacements w c preamble (id ls) es) (page ls).
Proof.
  intros Hall. revert ls.
  induction Hall as [|e es He _ IH]; intros ls; [reflexivity|].
  cbn [fold_left replacements]. rewrite IH, step_id, step_page, He.
  reflexivity.
Qed.

End Replacements.

(** In a document whose expressions are all of one mode, every expression
    is replaced where it stands. *)
Lemma single_mode_in_place w st preamble page1 r m :
  good_delim r -> delim r <> [] ->
  Forall (fun c => ~ plain_char c) (delim r) ->
  plain_digest w -> plain_cache (cached st) ->
  extract page1 = List.map (fun x => (r, m, x)) (findall r page1) ->
  page (fold_left (step w (cached st) preamble) (extract page1)
          (loop_start st page1))
  = weave (delim r) (fst (finditer r page1))
      (replacements w (cached st) preamble O (extract page1))
      (snd (finditer r page1)).
Proof.
  intros Hgood Hd Hdel Hw Hc Hex.
  rewrite (loop_page_single w (cached st) preamble r).
  - destruct (finditer r page1) as [ms tl] eqn:Hf. cbn [fst snd].
    cbn [loop_start page id].
    apply (sub_chain r (S (List.length page1)) Hgood ms None page1 tl []).
    + now apply replacements_neutral.
    + apply inert_nil.
    + reflexivity.
    + exact Hf.
    + rewrite replacements_length, Hex, length_map.
      unfold findall. rewrite Hf, length_map. reflexivity.
  - rewrite Hex. apply List.Forall_forall.
    intros e (x & <- & _)%List.in_map_iff. reflexivity.
Qed.




(** ** Failing compilations *)



(** ** The same expression twice *)



(** ** The properties at work on sample documents *)

Lemma demo_digest_token s : token (Demo.digest s).
Proof.
  assert (H : forall i, token_char (Demo.hexdigit i) = true).
  { intros i. unfold Demo.hexdigit.
    assert (Hall : Forall (fun c => token_char c = true)
                     (48 :: py "0123456789abcdef")).
    { apply List.Forall_forall. apply forallb_forall. vm_compute.
      reflexivity. }
    rewrite List.Forall_forall in Hall. apply Hall.
    destruct (Nat.lt_ge_cases (N.to_nat i)
                (List.length (py "0123456789abcdef"))).
    - right. now apply nth_In.
    - left. now rewrite nth_overflow. }
  unfold Demo.digest. repeat constructor; apply H.
Defined.

Lemma demo_digest_field s : field (Demo.digest s).
Proof. apply token_field, demo_digest_token. Defined.

(** Two lines without any region come back as they are, and nothing is
    run. *)
Lemma no_regions_noop_witness :
  snd (run Demo.tools Demo.fresh [py "Hello"; py "world"])
  = Ok (split newline (join [newline] [py "Hello"; py "world"]))
  /\ trace (fst (run Demo.tools Demo.fresh [py "Hello"; py "world"])) = [].
Proof.
  pose proof (no_regions_noop Demo.tools Demo.fresh [py "Hello"; py "world"])
    as H.
  cbv zeta in H.
  specialize (H ltac:(vm_compute; reflexivity) ltac:(vm_compute; reflexivity)
                ltac:(vm_compute; reflexivity)).
  destruct H as (H1 & _ & _ & H4 & _).
  split; [exact H1 | exact H4].
Defined.




(** An escaped math delimiter before a math region. *)
Lemma escaped_delimiters_not_boundaries_witness :
  extract (py "a" ++ backslash :: config_delimiters_math
           ++ config_delimiters_math ++ py "x" ++ config_delimiters_math
           ++ py "b")
  = [(re_mathmode, true, py "x")].
Proof.
  destruct (escaped_delimiters_not_boundaries re_mathmode []) as (_ & _ & H).
  apply (H (py "a") (py "x") (py "b")).
  - repeat constructor; discriminate.
  - repeat constructor; discriminate.
  - repeat constructor; discriminate.
  - discriminate.
  - discriminate.
Defined.

(** A cache file with a line that does not unpack between two that do. *)
Lemma cache_loading_tolerant_witness :
  exists st',
    __init__ {| cached := ∅; tex_preamble := [];
            cache_file := Text (py "ab cd" ++ [newline] ++ py "bad"
                                ++ [newline] ++ py "k v" ++ [newline]);
            trace := [] |} = Ok st'
    /\ is_Some (cached st' !! py "ab").
Proof.
  destruct (cache_loading_tolerant
              {| cached := ∅; tex_preamble := [];
                 cache_file := Text (py "ab cd" ++ [newline] ++ py "bad"
                                     ++ [newline] ++ py "k v" ++ [newline]);
                 trace := [] |}) as (st' & Hinit & _ & _ & H).
  exists st'. split; [exact Hinit|].
  destruct (H _ [py "ab cd" ++ [newline]] (py "bad" ++ [newline])
              [py "k v" ++ [newline]] eq_refl
              ltac:(vm_compute; reflexivity)
              ltac:(repeat constructor; vm_compute; eauto)
              ltac:(vm_compute; reflexivity)) as (_ & _ & Hin).
  apply (Hin (py "ab cd" ++ [newline]) (py "ab") (py "cd"));
    [now left | vm_compute; reflexivity].
Defined.


(** * Further properties of the code *)

(** ** The patterns of [build_regexp] *)

Section MorePatternFacts.

Variable r : pattern.


(** The scan behind an inert prefix is the scan of what follows it. *)
Lemma scan_behind_inert fuel pre p t :
  inert r pre -> lookbehind_ok p = true ->
  scan (S fuel) r None (pre ++ t)
  = match scan (S fuel) r p t with
    | ((b, g) :: ms, tl) => ((pre ++ b, g) :: ms, tl)
    | ([], tl) => ([], pre ++ tl)
    end.
Proof.
  intros Hin Hp. rewrite !scan_unfold, (Hin t p Hp).
  destruct (search r p t) as [[[b g] rest]|] eqn:Hs; [|reflexivity].
  cbn [shift]. cbn zeta.
  apply search_sound in Hs as (_ & Hg & _).
  rewrite (last_char_nonempty g (last_char (pre ++ b) None) (last_char b p))
    by assumption.
  now destruct (scan fuel r _ rest).
Qed.

Lemma findall_behind_inert pre p t :
  inert r pre -> lookbehind_ok p = true ->
  findall r (pre ++ t)
  = List.map snd (fst (scan (S (List.length (pre ++ t))) r p t)).
Proof.
  intros Hin Hp. unfold findall, finditer.
  rewrite (scan_behind_inert _ pre p t Hin Hp).
  destruct (scan _ r p t) as [[|[b g] ms] tl]; reflexivity.
Qed.

(** Replacing the leftmost match by a neutral text leaves the matches that
    came after it. *)
Lemma findall_sub_neutral repl s :
  good_delim r -> neutral r repl ->
  findall r (sub r repl s) = List.tl (findall r s).
Proof.
  intros Hgood Hrepl. unfold sub.
  destruct (search r None s) as [[[b g] rest]|] eqn:Hs.
  - pose proof (search_sound r _ _ _ _ _ Hs) as (Heq & Hg & _).
    assert (Hin : inert r (b ++ repl)).
    { exact (inert_extend r [] None s b g rest repl (inert_nil r) eq_refl
               Hrepl Hs). }
    rewrite app_assoc.
    rewrite (findall_behind_inert (b ++ repl)
               (last_char (delim r) (last_char g (last_char b None))) rest
               Hin (Hgood _)).
    unfold findall, finditer.
    rewrite (scan_unfold r (List.length s) None s), Hs. cbn zeta.
    assert (Hlen : (List.length rest < List.length s)%nat).
    { rewrite Heq, !length_app. destruct g; [contradiction|]. simpl. lia. }
    rewrite (scan_fuel r (List.length s)
               (S (List.length ((b ++ repl) ++ rest)))) by
      (try assumption; rewrite length_app; lia).
    now destruct (scan _ r _ rest).
  - unfold findall, finditer. rewrite scan_unfold, Hs. reflexivity.
Qed.

(** The groups of a scan are not empty, do not end with a backslash, and
    fit into the text with their delimiters. *)
Lemma scan_groups fuel prev s ms tl :
  scan fuel r prev s = (ms, tl) ->
  Forall (fun m => snd m <> []
                   /\ lookbehind_ok (last_char (snd m) None) = true) ms
  /\ (list_sum (List.map (fun m => 2 * List.length (delim r)
                                   + List.length (snd m)) ms)
      <= List.length s)%nat.
Proof.
  revert prev s ms tl; induction fuel as [|fuel IH]; intros prev s ms tl.
  - simpl. intros [= <- <-]. split; [constructor | simpl; lia].
  - rewrite scan_unfold.
    destruct (search r prev s) as [[[b g] rest]|] eqn:Hs;
      [|intros [= <- <-]; split; [constructor | simpl; lia]].
    cbn zeta. destruct (scan fuel r _ rest) as [ms' tl'] eqn:Hsc.
    intros [= <- <-].
    apply search_sound in Hs as (-> & Hg & _ & Hlg).
    destruct (IH _ _ _ _ Hsc) as [H1 H2].
    split; [constructor; auto|].
    unfold list_sum in *. cbn [List.map fold_right snd].
    rewrite !length_app. lia.
Qed.

End MorePatternFacts.



Lemma patterns_good r :
  In r [re_textmode; re_mathmode; re_preamblemode] ->
  good_delim r /\ delim r <> []
  /\ Forall (fun c => ~ plain_char c) (delim r).
Proof.
  intros [<-|[<-|[<-|[]]]]; (split; [intros p; reflexivity|]);
    (split; [discriminate|]);
    repeat constructor; unfold plain_char; intros (? & ? & ? & ?); congruence.
Qed.

(** X2.  One substitution consumes one match and disturbs no other: after
    the leftmost match of one of the three patterns is replaced by the
    replacement text of an expression (its digest and payload being free of
    delimiters and backslashes), or after a preamble region is deleted, the
    pattern finds exactly the matches that followed the replaced one; a
    text without a match is left as it is. *)
Theorem substitution_consumes_one_match (r : pattern) (m : bool)
  (h d s : pystr) (n : nat) :
  In r [re_textmode; re_mathmode; re_preamblemode] ->
  plain h -> plain d ->
  findall r (sub r (replacement m h n d) s) = List.tl (findall r s)
  /\ findall re_preamblemode (sub re_preamblemode [] s)
     = List.tl (findall re_preamblemode s)
  /\ (findall r s = [] -> sub r (replacement m h n d) s = s).
Proof.
  intros Hr Hh Hd. destruct (patterns_good r Hr) as (Hgood & Hne & Hdel).
  split; [|split].
  - apply findall_sub_neutral; [assumption|].
    now apply replacement_neutral.
  - apply findall_sub_neutral;
      [apply good_delim_preamble | apply neutral_preamble_nil].
  - intros Hnil. apply findall_nil_finditer in Hnil.
    unfold finditer in Hnil. rewrite scan_unfold in Hnil.
    unfold sub. destruct (search r None s) as [[[b g] rest]|]; [|reflexivity].
    cbn zeta in Hnil. destruct (scan _ r _ rest). discriminate.
Qed.

Lemma substitution_consumes_one_match_witness :
  findall re_textmode
    (sub re_textmode (replacement false (py "78") 1 (py "AA=="))
       (py "%x% and %y%"))
  = [py "y"].
Proof.
  destruct (substitution_consumes_one_match re_textmode false (py "78")
              (py "AA==") (py "%x% and %y%") 1) as (H & _).
  - now left.
  - apply plain_of_bool. vm_compute. reflexivity.
  - apply plain_of_bool. vm_compute. reflexivity.
  - rewrite H. vm_compute. reflexivity.
Defined.

(** X3.  No extracted expression is empty or ends with a backslash, and the
    matches of a pattern do not overlap: the lengths of the groups, plus twice
    the length of the delimiter for each, add up to at most the length of
    the text. *)
Theorem groups_nonempty_and_disjoint (r : pattern) (s : pystr) :
  Forall (fun g => g <> [] /\ last_char g None <> Some backslash)
    (findall r s)
  /\ (list_sum (List.map (fun g => 2 * List.length (delim r)
                                   + List.length g) (findall r s))
      <= List.length s)%nat.
Proof.
  unfold findall. destruct (finditer r s) as [ms tl] eqn:Hf.
  destruct (scan_groups r _ _ _ _ _ Hf) as [H1 H2]. cbn [fst]. split.
  - apply List.Forall_map. eapply List.Forall_impl; [|exact H1].
    intros [b g] [Hg Hl]. split; [exact Hg|].
    now apply lookbehind_ok_spec.
  - now rewrite List.map_map.
Qed.

(** ** Cache lines *)

Section MoreCacheFacts.

Lemma split_fields_free c s : Forall (fun f => ~ In c f) (split c s).
Proof.
  induction s as [|x s IH]; cbn [split].
  - constructor; [intros [] | constructor].
  - destruct (N.eqb_spec x c) as [->|Hne].
    + constructor; [intros [] | exact IH].
    + destruct (split c s) as [|f fs]; [repeat constructor; intros [H|[]];
                                       congruence|].
      inversion IH; subst. constructor; [|assumption].
      intros [H|H]; [congruence | contradiction].
Qed.

Lemma insert_all_snoc es k v c :
  insert_all (es ++ [(k, v)]) c = <[k := v]> (insert_all es c).
Proof. unfold insert_all. now rewrite fold_left_app. Qed.

(** What a key is bound to after the insertions: the value of its last
    entry, or what it was bound to before. *)
Lemma insert_all_lookup es c k :
  insert_all es c !! k
  = match dict_get k (rev es) with
    | Some v => Some v
    | None => c !! k
    end.
Proof.
  induction es as [|[k' v'] es IH] using rev_ind; [reflexivity|].
  rewrite insert_all_snoc, rev_unit. cbn [dict_get].
  destruct (str_eqb k k') eqn:E.
  - apply str_eqb_eq in E as ->. apply lookup_insert_eq.
  - rewrite lookup_insert_ne; [exact IH|].
    intros ->. now rewrite str_eqb_refl in E.
Qed.

Lemma insert_all_idempotent es c :
  insert_all es (insert_all es c) = insert_all es c.
Proof.
  apply map_eq. intros k. rewrite !insert_all_lookup.
  now destruct (dict_get k (rev es)).
Qed.



End MoreCacheFacts.

(** X4.  A line of the cache file unpacks into a key and a value exactly
    when, once the newlines at its ends are stripped, it holds one space and
    no more: the key is what precedes the space and the value what follows
    it.  Lines without a space, empty lines and lines with two spaces stop
    the loading. *)
Theorem entry_of_spec (line k v : pystr) :
  entry_of line = Some (k, v)
  <-> strip newline line = k ++ [space] ++ v
      /\ ~ In space k /\ ~ In space v.
Proof.
  unfold entry_of. split.
  - pose proof (join_split space (strip newline line)) as Hj.
    pose proof (split_fields_free space (strip newline line)) as Hf.
    destruct (split space (strip newline line)) as [|a [|b [|x l]]];
      try discriminate.
    intros [= -> ->]. inversion Hf as [|? ? Ha Hf']; subst.
    inversion Hf' as [|? ? Hb _]; subst. split; [|auto].
    rewrite <- Hj. reflexivity.
  - intros (-> & Hk & Hv). cbn [app].
    rewrite split_app_sep, split_no_sep by assumption. reflexivity.
Qed.

(** X5.  [__init__] binds every key of the cache file to the value of the
    last line that holds it, among the lines before the first one that does
    not unpack, and leaves the other keys of the dictionary as they were.
    Building a second instance on the same file therefore changes
    nothing. *)
Theorem cache_load_last_line_wins (st : state) :
  exists st1,
    __init__ st = Ok st1
    /\ (forall k,
          cached st1 !! k
          = match dict_get k (rev (file_entries (cache_file st))) with
            | Some v => Some v
            | None => cached st !! k
            end)
    /\ cache_file st1 = cache_file st
    /\ __init__ st1 = Ok st1.
Proof.
  assert (Hload : forall c, fst (load_cache c (cache_file st))
                            = insert_all (file_entries (cache_file st)) c).
  { intros c. unfold load_cache, file_entries.
    destruct (cache_file st); [reflexivity | reflexivity |].
    apply load_lines_fst. }
  exists {| cached := fst (load_cache (cached st) (cache_file st));
            tex_preamble := base_preamble;
            cache_file := cache_file st;
            trace := trace st |}.
  split; [unfold __init__; now destruct (load_cache _ _)|].
  cbn [cached cache_file]. split; [|split; [reflexivity|]].
  - intros k. rewrite Hload. apply insert_all_lookup.
  - unfold __init__. cbn [cached cache_file tex_preamble trace].
    destruct (load_cache _ (cache_file st)) as [c2 res] eqn:Hl.
    do 2 f_equal.
    change c2 with (fst (c2, res)). rewrite <- Hl.
    now rewrite !Hload, insert_all_idempotent.
Qed.



(** ** What a run records and what it runs *)

Section MoreLoopFacts.

Variable w : world.
Variable c : gmap pystr pystr.
Variable preamble : pystr.

Lemma dict_set_in k v k0 v0 d :
  In (k, v) (dict_set k0 v0 d) -> (k, v) = (k0, v0) \/ In (k, v) d.
Proof.
  induction d as [|[k' v'] d IH]; cbn [dict_set].
  - intros [H|[]]. now left.
  - destruct (str_eqb k0 k').
    + intros [H|H]; [now left | right; now right].
    + intros [H|H]; [right; now left|].
      destruct (IH H); [now left | right; now right].
Qed.

Lemma loop_recorded_from es :
  forall done ls,
    recorded_from w c preamble done (new_cache ls) ->
    recorded_from w c preamble (done ++ es)
      (new_cache (fold_left (step w c preamble) es ls)).
Proof.
  induction es as [|e es IH]; intros done ls Hinv.
  - now rewrite app_nil_r.
  - cbn [fold_left].
    replace (done ++ e :: es) with ((done ++ [e]) ++ es)
      by now rewrite <- app_assoc.
    apply IH. intros k v Hin. rewrite step_new_cache in Hin.
    assert (Hold : In (k, v) (new_cache ls) ->
              c !! k = None
              /\ exists r m E, In (r, m, E) (done ++ [e])
                               /\ k = md5_hexdigest w E
                               /\ snd (_latex_to_base64 w preamble E m) = Ok v).
    { intros H. destruct (Hinv k v H) as (Hc & r & m & E & HE & Hk & Hok).
      split; [assumption|]. exists r, m, E. split; [|auto].
      apply in_or_app. now left. }
    destruct (c !! md5_hexdigest w (snd e)) eqn:Hc; [auto|].
    destruct (snd (_latex_to_base64 w preamble (snd e) (snd (fst e))))
      as [d|x] eqn:Hok; [|auto].
    apply dict_set_in in Hin as [[= -> ->]|Hin]; [|auto].
    split; [assumption|].
    destruct e as [[r m] E]. exists r, m, E. cbn [fst snd] in *.
    split; [apply in_or_app; right; now left | auto].
Qed.









End MoreLoopFacts.

(** X7.  The entries a run records have pairwise distinct keys, and each
    of them is the digest of an expression of the document that was not in
    the cache, bound to the base64 payload a successful compilation of that
    expression returned: nothing cached is written again, and nothing is
    written for a failed compilation. *)
Theorem new_entries_are_fresh_compiles (w : world) (st : state)
  (lines : list pystr) :
  let preamble :=
    fst (absorb_preambles (tex_preamble st) (join [newline] lines)) in
  let page1 :=
    snd (absorb_preambles (tex_preamble st) (join [newline] lines)) in
  let ls := fold_left (step w (cached st) preamble) (extract page1)
              (loop_start st page1) in
  List.NoDup (List.map fst (new_cache ls))
  /\ forall k v, In (k, v) (new_cache ls) ->
       cached st !! k = None
       /\ token v
       /\ exists r m E,
            In (r, m, E) (extract page1) /\ k = md5_hexdigest w E
            /\ snd (_latex_to_base64 w preamble E m) = Ok v.
Proof.
  intros preamble page1 ls. split.
  - assert (H : forall es ls0, List.NoDup (List.map fst (new_cache ls0)) ->
              List.NoDup (List.map fst
                (new_cache (fold_left (step w (cached st) preamble) es ls0)))).
    { induction es as [|e es IH]; intros ls0 Hnd; [assumption|].
      apply IH. rewrite step_new_cache.
      destruct (cached st !! _); [assumption|].
      destruct (snd (_latex_to_base64 _ _ _ _)); [|assumption].
      now apply dict_set_nodup. }
    apply H. constructor.
  - intros k v Hin.
    destruct (loop_recorded_from w (cached st) preamble (extract page1) []
                (loop_start st page1) ltac:(intros ? ? [])
                k v Hin) as (Hc & r & m & E & HE & Hk & Hok).
    split; [assumption|].
    split; [exact (latex_to_base64_token _ _ _ _ _ Hok)|].
    exists r, m, E. auto.
Qed.


(** ** Element identifiers *)






(** ** What the un-escaping leaves alone *)

Section MorePassFacts.

Variable tok : pystr.
Hypothesis tok_nonempty : tok <> [].

Local Abbreviation pass := (replace (backslash :: tok) tok).

Lemma filter_not_backslash_cons s :
  List.filter not_backslash (backslash :: s) = List.filter not_backslash s.
Proof. reflexivity. Qed.

(** A pass deletes backslashes and nothing else. *)
Lemma pass_filter n :
  forall s, (List.length s <= n)%nat ->
    List.filter not_backslash (pass s) = List.filter not_backslash s
    /\ (List.length (pass s) <= List.length s)%nat.
Proof.
  induction n as [|n IH]; intros s Hlen.
  - destruct s; [split; reflexivity | simpl in Hlen; lia].
  - destruct s as [|c s]; [split; reflexivity|].
    destruct (N.eqb_spec c backslash) as [->|Hc].
    + destruct (startswith tok s) eqn:Hs.
      * apply startswith_spec in Hs as [u ->]. rewrite pass_escape.
        destruct (IH u) as [H1 H2].
        { simpl in Hlen. rewrite length_app in Hlen. lia. }
        rewrite filter_not_backslash_cons, !List.filter_app, H1.
        split; [reflexivity|].
        cbn [List.length]. rewrite !length_app. lia.
      * rewrite pass_backslash by assumption.
        destruct (IH s) as [H1 H2]; [simpl in Hlen; lia|].
        rewrite !filter_not_backslash_cons. split; [exact H1|].
        cbn [List.length]. lia.
    + rewrite pass_other by assumption.
      destruct (IH s) as [H1 H2]; [simpl in Hlen; lia|].
      cbn [List.filter]. rewrite H1.
      split; [reflexivity | cbn [List.length]; lia].
Qed.

Lemma pass_id s : ~ In backslash s -> pass s = s.
Proof.
  induction s as [|c s IH]; intros Hnin; [reflexivity|].
  rewrite pass_other by (intros ->; apply Hnin; now left).
  rewrite IH; [reflexivity|]. intros H. apply Hnin. now right.
Qed.

Lemma startswith_app_foreign p c0 a y :
  ~ In c0 p -> p <> [] -> startswith p (a ++ c0 :: y) = startswith p a.
Proof.
  revert a; induction p as [|t p IH]; intros a Hnin Hne; [contradiction|].
  destruct a as [|x a].
  - cbn [app]. apply startswith_head_ne. intros ->. apply Hnin. now left.
  - cbn [app startswith]. destruct (t =? x); [|reflexivity]. cbn [andb].
    destruct p as [|t' p]; [reflexivity|].
    apply IH; [|discriminate]. intros H. apply Hnin. now right.
Qed.

(** A character foreign to the token and to the backslash splits the text
    into two parts that the pass handles independently. *)
Lemma pass_split n c0 :
  ~ In c0 tok -> c0 <> backslash ->
  forall a y, (List.length a <= n)%nat ->
    pass (a ++ c0 :: y) = pass a ++ c0 :: pass y.
Proof.
  intros Hc0 Hb. induction n as [|n IH]; intros a y Hlen.
  - destruct a; [|simpl in Hlen; lia]. cbn [app].
    now rewrite pass_other.
  - destruct a as [|c a]; [cbn [app]; now rewrite pass_other|].
    change ((c :: a) ++ c0 :: y) with (c :: (a ++ c0 :: y)).
    destruct (N.eqb_spec c backslash) as [->|Hc].
    + destruct (startswith tok a) eqn:Hs.
      * apply startswith_spec in Hs as [u ->].
        rewrite <- app_assoc, !pass_escape, IH, <- app_assoc; [reflexivity|].
        simpl in Hlen. rewrite length_app in Hlen. lia.
      * rewrite !pass_backslash;
          [|assumption | now rewrite startswith_app_foreign].
        rewrite IH; [reflexivity | simpl in Hlen; lia].
    + rewrite !pass_other by assumption.
      rewrite IH; [reflexivity | simpl in Hlen; lia].
Qed.

End MorePassFacts.

Lemma pass_filter_eq tok s :
  tok <> [] ->
  List.filter not_backslash (replace (backslash :: tok) tok s)
  = List.filter not_backslash s
  /\ (List.length (replace (backslash :: tok) tok s) <= List.length s)%nat.
Proof. intros Htok. exact (pass_filter tok _ s (le_n _)). Qed.

Lemma pass_split_eq tok c0 a y :
  tok <> [] -> ~ In c0 tok -> c0 <> backslash ->
  replace (backslash :: tok) tok (a ++ c0 :: y)
  = replace (backslash :: tok) tok a ++ c0 :: replace (backslash :: tok) tok y.
Proof.
  intros Htok Hc0 Hb.
  exact (pass_split tok Htok (List.length a) c0 Hc0 Hb a y (le_n _)).
Qed.

Lemma unescape_split a c0 y :
  plain_char c0 -> unescape (a ++ c0 :: y) = unescape a ++ c0 :: unescape y.
Proof.
  intros (H37 & Hb & H194 & H163). rewrite !unescape_passes.
  rewrite (pass_split_eq config_delimiters_preamble c0);
    [|discriminate | intros [H|[H|[]]]; congruence | assumption].
  rewrite (pass_split_eq config_delimiters_text c0);
    [|discriminate | intros [H|[]]; congruence | assumption].
  rewrite (pass_split_eq config_delimiters_math c0);
    [|discriminate | intros [H|[H|[]]]; congruence | assumption].
  rewrite (pass_split_eq [backslash] c0);
    [reflexivity | discriminate | intros [H|[]]; congruence | assumption].
Qed.

Lemma unescape_plain_prefix repl b :
  plain repl -> unescape (repl ++ b) = repl ++ unescape b.
Proof.
  induction 1 as [|c repl (_ & Hc & _) _ IH]; [reflexivity|].
  cbn [app]. rewrite unescape_other by assumption. now rewrite IH.
Qed.

(** The un-escaping goes around a text free of delimiters and
    backslashes. *)
Lemma unescape_around a repl b :
  plain repl -> repl <> [] ->
  unescape (a ++ repl ++ b) = unescape a ++ repl ++ unescape b.
Proof.
  intros Hpl Hne. destruct repl as [|c0 repl]; [contradiction|].
  inversion Hpl as [|? ? Hc0 Hrest]; subst.
  cbn [app]. rewrite unescape_split by assumption.
  now rewrite unescape_plain_prefix.
Qed.

(** X10.  The un-escaping deletes backslashes and does nothing else: the
    characters other than backslashes are the same, in the same order,
    before and after it; the text never grows; and a text without a
    backslash comes out as it went in. *)
Theorem unescape_only_drops_backslashes (s : pystr) :
  List.filter not_backslash (unescape s) = List.filter not_backslash s
  /\ (List.length (unescape s) <= List.length s)%nat
  /\ (~ In backslash s -> unescape s = s).
Proof.
  rewrite unescape_passes.
  set (s1 := replace (backslash :: config_delimiters_preamble)
               config_delimiters_preamble s).
  set (s2 := replace (backslash :: config_delimiters_text)
               config_delimiters_text s1).
  set (s3 := replace (backslash :: config_delimiters_math)
               config_delimiters_math s2).
  destruct (pass_filter_eq config_delimiters_preamble s ltac:(discriminate))
    as [F1 L1].
  destruct (pass_filter_eq config_delimiters_text s1 ltac:(discriminate))
    as [F2 L2].
  destruct (pass_filter_eq config_delimiters_math s2 ltac:(discriminate))
    as [F3 L3].
  destruct (pass_filter_eq [backslash] s3 ltac:(discriminate)) as [F4 L4].
  fold s1 in F1, L1. fold s2 in F2, L2. fold s3 in F3, L3.
  change [backslash; backslash] with (backslash :: [backslash]).
  split; [congruence|]. split; [lia|].
  intros Hnin. subst s3 s2 s1.
  rewrite (pass_id config_delimiters_preamble s Hnin).
  rewrite (pass_id config_delimiters_text s Hnin).
  rewrite (pass_id config_delimiters_math s Hnin).
  exact (pass_id [backslash] s Hnin).
Qed.

(** X11.  The un-escaping leaves a replacement text alone, wherever it
    stands: when the digest and the payload are free of delimiters and
    backslashes, un-escaping a text that holds the image tag or the error
    marker of an expression gives the un-escaped text before it, the
    replacement unchanged, and the un-escaped text after it. *)
Theorem unescape_spares_replacement (m : bool) (h d a b : pystr) (n : nat) :
  plain h -> plain d ->
  unescape (a ++ replacement m h n d ++ b)
  = unescape a ++ replacement m h n d ++ unescape b.
Proof.
  intros Hh Hd. apply unescape_around.
  - now apply replacement_plain.
  - apply replacement_nonempty.
Qed.

Lemma unescape_spares_replacement_witness :
  unescape (py "\%" ++ replacement true (py "78") 1 (py "iVBORw==")
            ++ py "\\")
  = py "%" ++ replacement true (py "78") 1 (py "iVBORw==") ++ py "\".
Proof.
  rewrite (unescape_spares_replacement true (py "78") (py "iVBORw==")
             (py "\%") (py "\\") 1).
  - reflexivity.
  - apply plain_of_bool. vm_compute. reflexivity.
  - apply plain_of_bool. vm_compute. reflexivity.
Defined.

Lemma replacements_plain w c preamble n es :
  plain_digest w -> plain_cache c ->
  Forall (fun rp => plain rp /\ rp <> []) (replacements w c preamble n es).
Proof.
  intros Hw Hc. revert n.
  induction es as [|e es IH]; intros n; cbn [replacements]; constructor.
  - split; [|apply replacement_nonempty].
    apply replacement_plain; [apply Hw | now apply step_data_plain].
  - apply IH.
Qed.

(** Un-escaping a page in which every match was replaced. *)
Lemma unescape_weave d ms :
  forall repls tl,
    List.length repls = List.length ms ->
    Forall (fun rp => plain rp /\ rp <> []) repls ->
    unescape (weave d ms repls tl)
    = weave d (List.map (fun bg => (unescape (fst bg), snd bg)) ms) repls
        (unescape tl).
Proof.
  induction ms as [|[b g] ms IH]; intros repls tl Hlen Hall.
  - destruct repls; [reflexivity | discriminate].
  - destruct repls as [|rp repls]; [discriminate|].
    inversion Hall as [|? ? [Hpl Hne] Hrest]; subst.
    cbn [weave List.map fst snd].
    rewrite unescape_around by assumption.
    rewrite IH; [reflexivity | now injection Hlen | assumption].
Qed.

(** X12.  What a run returns for a document whose regions are all of one
    mode (text only, or math only).  With digests and cached payloads free
    of delimiters and backslashes and a cache file that can be opened, the
    run returns the lines of this text: the stretches between the regions,
    each un-escaped by itself, with the replacement text of the k-th
    expression standing where the k-th region was; there are as many
    replacement texts as regions. *)
Theorem single_mode_run (w : world) (st : state) (lines : list pystr)
  (r : pattern) (m : bool) :
  let preamble :=
    fst (absorb_preambles (tex_preamble st) (join [newline] lines)) in
  let page1 :=
    snd (absorb_preambles (tex_preamble st) (join [newline] lines)) in
  let repls := replacements w (cached st) preamble O (extract page1) in
  plain_digest w -> plain_cache (cached st) ->
  cache_file st <> Unreadable ->
  In r [re_textmode; re_mathmode] ->
  extract page1 = List.map (fun x => (r, m, x)) (findall r page1) ->
  extract page1 <> [] ->
  List.length repls = List.length (fst (finditer r page1))
  /\ snd (run w st lines)
     = Ok (split newline
             (weave (delim r)
                (List.map (fun bg => (unescape (fst bg), snd bg))
                   (fst (finditer r page1)))
                repls
                (unescape (snd (finditer r page1))))).
Proof.
  intros preamble page1 repls Hw Hc Hfile Hr Hex Hne.
  assert (Hlen : List.length repls = List.length (fst (finditer r page1))).
  { subst repls. rewrite replacements_length, Hex, length_map.
    unfold findall. now rewrite length_map. }
  split; [exact Hlen|].
  assert (Hrun : run w st lines = render w st preamble page1).
  { unfold run. subst preamble page1. now destruct (absorb_preambles _ _). }
  destruct (patterns_good r) as (Hgood & Hd & Hdel).
  { destruct Hr as [<-|[<-|[]]]; cbn; auto. }
  pose proof (single_mode_in_place w st preamble page1 r m
                Hgood Hd Hdel Hw Hc Hex) as Hpage.
  rewrite Hrun. unfold render.
  destruct (extract page1) as [|e es] eqn:He; [contradiction|].
  rewrite Hpage.
  rewrite unescape_weave;
    [|exact Hlen | now apply replacements_plain].
  destruct (cache_file st); [reflexivity | contradiction | reflexivity].
Qed.

Lemma single_mode_run_witness :
  snd (run Demo.tools (Demo.started Demo.fresh) [py "a\% %x% b"])
  = Ok [py "a% " ++ Demo.block_x 1 ++ py " b"].
Proof.
  pose proof (single_mode_run Demo.tools (Demo.started Demo.fresh)
                [py "a\% %x% b"] re_textmode false) as H.
  cbv zeta in H.
  destruct H as [_ H].
  - intros s. apply token_plain, demo_digest_token.
  - intros k v Hkv. vm_compute in Hkv. discriminate.
  - vm_compute. discriminate.
  - now left.
  - vm_compute. reflexivity.
  - vm_compute. discriminate.
  - rewrite H. vm_compute. reflexivity.
Defined.

(** ** What is compiled *)


(** ** The lines returned *)

(** X16.  Every line [run] returns is free of newlines, and there is at
    least one line. *)
Theorem returned_lines_hold_no_newline (w : world) (st : state)
  (lines out : list pystr) :
  snd (run w st lines) = Ok out ->
  out <> [] /\ Forall (fun l => ~ In newline l) out.
Proof.
  unfold run. destruct (absorb_preambles _ _) as [preamble page1].
  unfold render. destruct (extract page1) as [|e es].
  - cbn [snd]. intros [= <-].
    split; [apply split_nonempty | apply split_fields_free].
  - destruct (append _ _); cbn [snd]; [|discriminate].
    intros [= <-]. split; [apply split_nonempty | apply split_fields_free].
Qed.

Lemma returned_lines_hold_no_newline_witness :
  snd (run Demo.tools Demo.fresh [py "a" ++ [newline] ++ py "b"])
  = Ok [py "a"; py "b"]
  /\ [py "a"; py "b"] <> []
  /\ Forall (fun l => ~ In newline l) [py "a"; py "b"].
Proof.
  assert (H : snd (run Demo.tools Demo.fresh [py "a" ++ [newline] ++ py "b"])
              = Ok [py "a"; py "b"]) by (vm_compute; reflexivity).
  split; [exact H|].
  exact (returned_lines_hold_no_newline Demo.tools Demo.fresh
           [py "a" ++ [newline] ++ py "b"] [py "a"; py "b"] H).
Defined.

(** ** Instances over one cache *)





(** ** Where no region can be *)

(** X18.  A region needs its delimiter: a page without a percent sign has
    no text region and no preamble region, and a page without the first
    character of the math delimiter has no math region. *)
Theorem regions_need_delimiters (page : pystr) :
  (~ In 37 page ->
   findall re_textmode page = [] /\ findall re_preamblemode page = [])
  /\ (~ In 194 page -> findall re_mathmode page = []).
Proof.
  assert (H : forall e, ~ In e page -> Forall (fun c => c <> e) page).
  { intros e Hnin. apply List.Forall_forall. intros c Hc ->. auto. }
  split.
  - intros Hnin. split.
    + exact (findall_none_foreign re_textmode 37 [] page eq_refl (H _ Hnin)).
    + exact (findall_none_foreign re_preamblemode 37 [37] page eq_refl
               (H _ Hnin)).
  - intros Hnin.
    exact (findall_none_foreign re_mathmode 194 [163] page eq_refl (H _ Hnin)).
Qed.

(** ** An empty image *)

(** X19.  An image file that [dvipng] leaves empty is not a failure: the
    expression gets the error marker, but unlike a failed compilation its
    digest is recorded, with an empty payload.  The line written for it
    unpacks into the digest and the empty payload again, and an instance
    whose cache holds that entry puts the error marker for the expression
    without starting a tool and without recording anything. *)
Theorem empty_image_is_cached_as_error (w : world) (c : gmap pystr pystr)
  (preamble : pystr) (ls : loop_state) (r : pattern) (m : bool) (E : pystr) :
  let h := md5_hexdigest w E in
  let doc := document preamble E m in
  let ls' := step w c preamble ls (r, m, E) in
  field h ->
  (c !! h = None -> latex w doc = true -> dvipng w doc = Some [] ->
   dict_get h (new_cache ls') = Some []
   /\ page ls' = sub r (py "<p>ERROR</p>") (page ls))
  /\ entry_of (line_of (h, [])) = Some (h, [])
  /\ (c !! h = Some [] ->
      out ls' = out ls ++ [EvPrint h]
      /\ new_cache ls' = new_cache ls
      /\ page ls' = sub r (py "<p>ERROR</p>") (page ls)).
Proof.
  intros h doc ls' Hh. split; [|split].
  - intros Hc Hl Hd. subst ls'.
    rewrite step_new_cache, step_page. cbn [fst snd]. fold h.
    unfold step_data. fold h. rewrite Hc.
    unfold _latex_to_base64. fold doc. rewrite Hl, Hd. cbn [snd].
    change (Base64.b64encode []) with (@nil char).
    rewrite dict_get_set_same. split; reflexivity.
  - apply entry_of_line; [assumption | constructor].
  - intros Hc.
    destruct (step_cached w c preamble ls r m E [] Hc) as (H1 & H2 & _ & H4).
    auto.
Qed.

Lemma empty_image_is_cached_as_error_witness :
  dict_get (Demo.digest (py "x"))
    (new_cache (step Demo.tools_empty_image ∅ base_preamble
                  (loop_start Demo.fresh (py "%x%"))
                  (re_textmode, false, py "x")))
  = Some []
  /\ entry_of (line_of (Demo.digest (py "x"), []))
     = Some (Demo.digest (py "x"), []).
Proof.
  pose proof (empty_image_is_cached_as_error Demo.tools_empty_image ∅
                base_preamble (loop_start Demo.fresh (py "%x%"))
                re_textmode false (py "x")) as H.
  cbv zeta in H.
  destruct H as (H1 & H2 & _); [apply demo_digest_field|].
  destruct H1 as [H1 _]; [reflexivity..|].
  split; [exact H1 | exact H2].
Defined.

(** ** Documents with regions of both modes *)

(** X20.  The page the expression loop ends with, for any document, with
    digests and cached payloads free of delimiters and backslashes.  The
    text expressions come first, and each of them is replaced where it
    stands: after them the page is the original one with the k-th text
    region replaced by the k-th replacement text.  The math expressions
    follow, numbered on from the text expressions, and each substitution
    is made in the page as it is by then, at the leftmost math region
    left in it. *)
Theorem text_first_then_math (w : world) (st : state) (lines : list pystr) :
  let preamble :=
    fst (absorb_preambles (tex_preamble st) (join [newline] lines)) in
  let page1 :=
    snd (absorb_preambles (tex_preamble st) (join [newline] lines)) in
  let texts :=
    List.map (fun x => (re_textmode, false, x)) (findall re_textmode page1) in
  let maths :=
    List.map (fun x => (re_mathmode, true, x)) (findall re_mathmode page1) in
  let page_text :=
    weave config_delimiters_text (fst (finditer re_textmode page1))
      (replacements w (cached st) preamble O texts)
      (snd (finditer re_textmode page1)) in
  plain_digest w -> plain_cache (cached st) ->
  page (fold_left (step w (cached st) preamble) (extract page1)
          (loop_start st page1))
  = fold_left (fun pg rp => sub re_mathmode rp pg)
      (replacements w (cached st) preamble (List.length texts) maths)
      page_text.
Proof.
  intros preamble page1 texts maths page_text Hw Hc.
  unfold extract. fold texts maths. rewrite fold_left_app.
  rewrite (loop_page_single w (cached st) preamble re_mathmode maths).
  2:{ apply List.Forall_forall.
      intros e (x & <- & _)%List.in_map_iff. reflexivity. }
  rewrite loop_id. cbn [loop_start id Nat.add]. f_equal.
  rewrite (loop_page_single w (cached st) preamble re_textmode texts).
  2:{ apply List.Forall_forall.
      intros e (x & <- & _)%List.in_map_iff. reflexivity. }
  cbn [loop_start page id]. subst page_text.
  destruct (finditer re_textmode page1) as [ms tl] eqn:Hf. cbn [fst snd].
  destruct (patterns_good re_textmode ltac:(now left)) as (Hgood & Hd & Hdel).
  apply (sub_chain re_textmode (S (List.length page1)) Hgood ms None page1
           tl []).
  - now apply replacements_neutral.
  - apply inert_nil.
  - reflexivity.
  - exact Hf.
  - rewrite replacements_length. subst texts.
    unfold findall. rewrite Hf, !length_map. reflexivity.
Qed.

Lemma text_first_then_math_witness :
  page (fold_left (step Demo.tools ∅ (base_preamble ++ begin_document))
          (extract (py "%x% " ++ [194; 163] ++ py "x" ++ [194; 163]))
          (loop_start Demo.fresh
             (py "%x% " ++ [194; 163] ++ py "x" ++ [194; 163])))
  = Demo.block_x 1 ++ py " "
    ++ INLINE_IMG_EXPR (Demo.digest (py "x"))
         (element_id (Demo.digest (py "x")) 2)
         (Base64.b64encode Demo.png).
Proof.
  pose proof (text_first_then_math Demo.tools Demo.fresh
                [py "%x% " ++ [194; 163] ++ py "x" ++ [194; 163]]) as H.
  cbv zeta in H.
  etransitivity; [apply H|vm_compute; reflexivity].
  - intros s. apply token_plain, demo_digest_token.
  - intros k v Hkv. vm_compute in Hkv. discriminate.
Defined.
